(** * sftp.py: a shallow embedding of the interactive SFTP shell

    The development follows [src/sftp.py]: the argument tokenizer
    ([FTPClient._parse_args]), the completion cache
    ([CommandCompleter.get_completions]), the directory listing
    ([FTPClient.ls], [FTPClient._ls_sort]) and the session loop
    ([FTPClient.start_interactive]).

    Python [str] values are modelled as [string] (a character is an [ascii],
    read as a code point below 256), Python integers as [Z] or [nat],
    exceptions as values of [exn] carried by the result type [res], and the
    calls into paramiko, prompt_toolkit and rich as an oracle that says what
    each call returns or raises. *)

From Stdlib Require Import List String Ascii Bool Arith ZArith Lia.
From Stdlib Require Import Permutation Sorted DecimalString.
Import ListNotations.

Local Open Scope string_scope.
Local Open Scope list_scope.

(** ** Exceptions and results *)

Inductive exn : Type :=
| KeyboardInterrupt
| IOError (msg : string)
| ValueError (msg : string)
| UnboundLocalError (name : string)
| TypeError
| OtherError (msg : string).

Inductive res (A : Type) : Type :=
| Ok (a : A)
| Raise (e : exn).

Arguments Ok {A} a.
Arguments Raise {A} e.

(** ** Python string primitives *)

Module PyStr.

Definition dquote : ascii := "034"%char.
Definition squote : ascii := "'"%char.
Definition backslash : ascii := "\"%char.
Definition space : ascii := " "%char.

Definition char (c : ascii) : string := String c EmptyString.

(** [bool(s)]: a string is truthy when it is not empty. *)
Definition truthy (s : string) : bool :=
  match s with
  | EmptyString => false
  | String _ _ => true
  end.

(** [s.split(sep)] with an explicit one-character separator: every
    occurrence of the separator splits, so the result is never empty. *)
Fixpoint split (sep : ascii) (s : string) : list string :=
  match s with
  | EmptyString => [EmptyString]
  | String c rest =>
      if Ascii.eqb c sep then EmptyString :: split sep rest
      else match split sep rest with
           | h :: t => String c h :: t
           | [] => [char c]
           end
  end.

(** [sep.join(parts)]. *)
Definition join (sep : string) (parts : list string) : string :=
  String.concat sep parts.

(** [str(n)] / [f'{n}'] for a non-negative integer. *)
Definition of_nat (n : nat) : string :=
  NilEmpty.string_of_uint (Nat.to_uint n).

(** [s.lower()]; a character stands for a code point below 256, of which
    [str.lower] changes A to Z (65 to 90) and the Latin-1 capitals 192 to
    222 but the multiplication sign 215, each to the code point 32 above. *)
Definition lower_char (c : ascii) : ascii :=
  let n := nat_of_ascii c in
  if ((65 <=? n)%nat && (n <=? 90)%nat)
     || ((192 <=? n)%nat && (n <=? 222)%nat && negb (n =? 215)%nat)
  then ascii_of_nat (n + 32) else c.

Fixpoint lower (s : string) : string :=
  match s with
  | EmptyString => EmptyString
  | String c rest => String (lower_char c) (lower rest)
  end.

(** [needle in hay]. *)
Fixpoint contains (needle hay : string) : bool :=
  String.prefix needle hay ||
  match hay with
  | EmptyString => false
  | String _ rest => contains needle rest
  end.

End PyStr.

(** ** The argument tokenizer: [FTPClient._parse_args] *)

Module Tokenizer.
Import PyStr.

(** The local variables of [_parse_args]. *)
Record locals : Type := mkLocals {
  parsed : list string;
  arg : string;
  escaping : bool;
  quote : option ascii;
  index : nat
}.

Definition initial : locals :=
  {| parsed := []; arg := ""; escaping := false; quote := None; index := 0 |}.

Definition is_quote_char (c : ascii) : bool :=
  Ascii.eqb c dquote || Ascii.eqb c squote.

Definition quote_is (q : option ascii) (c : ascii) : bool :=
  match q with
  | Some q' => Ascii.eqb c q'
  | None => false
  end.

Definition quote_is_none (q : option ascii) : bool :=
  match q with
  | Some _ => false
  | None => true
  end.

(** One turn of the [for char in list(args)] loop. *)
Definition loop_body (st : locals) (c : ascii) : locals :=
  let i := S (index st) in
  if escaping st then
    {| parsed := parsed st; arg := arg st ++ char c; escaping := false;
       quote := quote st; index := i |}
  else if Ascii.eqb c backslash then
    {| parsed := parsed st; arg := arg st; escaping := true;
       quote := quote st; index := i |}
  else if quote_is (quote st) c then
    {| parsed := parsed st; arg := arg st; escaping := false;
       quote := None; index := i |}
  else if quote_is_none (quote st) && is_quote_char c then
    {| parsed := parsed st; arg := arg st; escaping := false;
       quote := Some c; index := i |}
  else if quote_is_none (quote st) && Ascii.eqb c space then
    {| parsed := if truthy (arg st) then parsed st ++ [arg st] else parsed st;
       arg := ""; escaping := false; quote := quote st; index := i |}
  else
    {| parsed := parsed st; arg := arg st ++ char c; escaping := false;
       quote := quote st; index := i |}.

(** The state of the locals when the loop is over. *)
Definition scan (args : string) : locals :=
  fold_left loop_body (list_ascii_of_string args) initial.

Definition unterminated_msg (i : nat) : string :=
  "Unterminated quote at index " ++ of_nat i.

Definition dangling_msg (i : nat) : string :=
  "Escape sequence is not followed by a character at index " ++ of_nat i.

(** The statements after the loop. *)
Definition finish (st : locals) : res (list string) :=
  match quote st with
  | Some _ => Raise (ValueError (unterminated_msg (index st)))
  | None =>
      if escaping st then Raise (ValueError (dangling_msg (index st)))
      else Ok (if truthy (arg st) then parsed st ++ [arg st] else parsed st)
  end.

Definition _parse_args (args : string) : res (list string) :=
  finish (scan args).

(** *** The reference machine, written from the specification (section 4.1)

    State: token buffer, escaping flag, active quote (none, single or
    double); the six rules in their priority order, then the end-of-input
    handling.  Tokens are emitted in front of what the rest of the input
    produces. *)

Inductive active_quote : Type := NoQuote | SingleQuote | DoubleQuote.

Inductive tokenizer_error : Type := UnterminatedQuote | DanglingEscape.

Definition quote_of_char (c : ascii) : active_quote :=
  if Ascii.eqb c squote then SingleQuote
  else if Ascii.eqb c dquote then DoubleQuote
  else NoQuote.

Definition closes (q : active_quote) (c : ascii) : bool :=
  match q with
  | NoQuote => false
  | SingleQuote => Ascii.eqb c squote
  | DoubleQuote => Ascii.eqb c dquote
  end.

Definition emit (tok : string) (r : tokenizer_error + list string)
  : tokenizer_error + list string :=
  match r with
  | inl e => inl e
  | inr toks => inr (tok :: toks)
  end.

Fixpoint reference_scan (buf : string) (esc : bool) (q : active_quote)
         (input : list ascii) : tokenizer_error + list string :=
  match input with
  | [] =>
      match q with
      | NoQuote =>
          if esc then inl DanglingEscape
          else inr (match buf with EmptyString => [] | _ => [buf] end)
      | _ => inl UnterminatedQuote
      end
  | c :: rest =>
      if esc then reference_scan (buf ++ char c) false q rest
      else if Ascii.eqb c backslash then reference_scan buf true q rest
      else if closes q c then reference_scan buf false NoQuote rest
      else
        match q with
        | NoQuote =>
            match quote_of_char c with
            | NoQuote =>
                if Ascii.eqb c space then
                  match buf with
                  | EmptyString => reference_scan buf false NoQuote rest
                  | _ => emit buf (reference_scan "" false NoQuote rest)
                  end
                else reference_scan (buf ++ char c) false NoQuote rest
            | opened => reference_scan buf false opened rest
            end
        | _ => reference_scan (buf ++ char c) false q rest
        end
  end.

Definition reference_tokenize (input : string)
  : tokenizer_error + list string :=
  reference_scan "" false NoQuote (list_ascii_of_string input).

(** How the two [ValueError]s of the source map to the error kinds of the
    specification. *)
Definition classify (r : res (list string))
  : option (tokenizer_error + list string) :=
  match r with
  | Ok toks => Some (inr toks)
  | Raise (ValueError msg) =>
      if String.prefix "Unterminated quote at index " msg
      then Some (inl UnterminatedQuote)
      else if String.prefix
                "Escape sequence is not followed by a character at index " msg
      then Some (inl DanglingEscape)
      else None
  | Raise _ => None
  end.

(** The input with runs of spaces collapsed to one space and the leading
    and trailing spaces removed.  [seen] says a word was already copied,
    [gap] that spaces were skipped since. *)
Fixpoint squeeze (seen gap : bool) (input : list ascii) : list ascii :=
  match input with
  | [] => []
  | c :: rest =>
      if Ascii.eqb c space then squeeze seen seen rest
      else (if gap then [space] else []) ++ c :: squeeze true false rest
  end.

Definition collapse_spaces (input : string) : string :=
  string_of_list_ascii (squeeze false false (list_ascii_of_string input)).

Definition plain_char (c : ascii) : bool :=
  negb (Ascii.eqb c dquote || Ascii.eqb c squote || Ascii.eqb c backslash).

Definition plain (input : string) : Prop :=
  Forall (fun c => plain_char c = true) (list_ascii_of_string input).

Definition text (l : list ascii) : string := string_of_list_ascii l.

(** The active quote of the source, a character or [None], against the
    three-valued one of the reference machine. *)
Inductive quote_rel : option ascii -> active_quote -> Prop :=
| QR_none : quote_rel None NoQuote
| QR_single : quote_rel (Some squote) SingleQuote
| QR_double : quote_rel (Some dquote) DoubleQuote.

(** Tokens already in [parsed], in front of what the reference machine
    produces from here on. *)
Definition prepend (p : list string) (r : tokenizer_error + list string)
  : tokenizer_error + list string :=
  match r with
  | inl e => inl e
  | inr toks => inr (p ++ toks)%list
  end.

Definition fails_with (r : res (list string)) (k : tokenizer_error) : Prop :=
  classify r = Some (inl k).

(** The token the statements after the loop append. *)
Definition last_token (st : locals) : list string :=
  if truthy (arg st) then [arg st] else [].

(** The end-of-input rule read as three separate conditions. *)
Definition end_of_input_rule (input : string) : Prop :=
  let st := scan input in
  (fails_with (_parse_args input) UnterminatedQuote <-> quote st <> None) /\
  (fails_with (_parse_args input) DanglingEscape <-> escaping st = true) /\
  (_parse_args input = Ok (parsed st ++ last_token st)%list
   <-> quote st = None /\ escaping st = false).

End Tokenizer.

(** ** The directory listing: [FTPClient._ls_sort] and Python's [sorted] *)

Module Listing.

(** A paramiko [SFTPAttributes]: [st_mode] is [None] when the server sent
    no permissions field. *)
Record SFTPAttributes : Type := mkAttr {
  filename : string;
  st_mode : option Z
}.

(** [stat.S_IFMT], [stat.S_ISDIR], [stat.S_ISREG]:
    [0o170000 = 61440], [0o040000 = 16384], [0o100000 = 32768]. *)
Definition S_IFMT (mode : Z) : Z := Z.land mode 61440.
Definition S_ISDIR (mode : Z) : bool := (S_IFMT mode =? 16384)%Z.
Definition S_ISREG (mode : Z) : bool := (S_IFMT mode =? 32768)%Z.

(** [entry.st_mode or 0]. *)
Definition mode_or_0 (m : option Z) : Z :=
  match m with
  | Some v => v
  | None => 0%Z
  end.

Definition sort_key : Type := (Z * string)%type.

(** The mode tests are applied to [item.st_mode] as it is: on [None] they
    raise [TypeError]. *)
Definition _ls_sort (item : SFTPAttributes) : res sort_key :=
  match st_mode item with
  | None => Raise TypeError
  | Some mode =>
      if S_ISDIR mode then Ok (1%Z, filename item)
      else if S_ISREG mode then Ok (2%Z, filename item)
      else Ok (3%Z, filename item)
  end.

(** Tuple comparison [a < b] on [(int, str)]: lexicographic, strings by
    code point. *)
Definition key_lt (a b : sort_key) : bool :=
  (fst a <? fst b)%Z || ((fst a =? fst b)%Z && String.ltb (snd a) (snd b)).

Definition key_le (a b : sort_key) : bool := negb (key_lt b a).

Section Sorted.
Context {A K : Type}.
Variable lt : K -> K -> bool.

(** [sorted] first calls the key function on every element, in order;
    the first exception ends the call. *)
Fixpoint decorate (key : A -> res K) (l : list A) : res (list (K * A)) :=
  match l with
  | [] => Ok []
  | x :: rest =>
      match key x with
      | Raise e => Raise e
      | Ok k =>
          match decorate key rest with
          | Raise e => Raise e
          | Ok d => Ok ((k, x) :: d)
          end
      end
  end.

(** The sort is stable and only uses [<] on the keys: an element goes
    in front of the first one that is not smaller than it. *)
Fixpoint insert (x : K * A) (l : list (K * A)) : list (K * A) :=
  match l with
  | [] => [x]
  | y :: rest =>
      if lt (fst y) (fst x) then y :: insert x rest else x :: y :: rest
  end.

Definition stable_sort (d : list (K * A)) : list (K * A) :=
  fold_right insert [] d.

Definition sorted (key : A -> res K) (l : list A) : res (list A) :=
  match decorate key l with
  | Raise e => Raise e
  | Ok d => Ok (map snd (stable_sort d))
  end.
End Sorted.

Definition symbol (entry : SFTPAttributes) : string :=
  if S_ISDIR (mode_or_0 (st_mode entry)) then "📁"
  else if S_ISREG (mode_or_0 (st_mode entry)) then "📄"
  else "?".

(** The line [ls] prints for an entry. *)
Definition display_line (entry : SFTPAttributes) : string :=
  symbol entry ++ " " ++ filename entry.

Inductive kind : Type := Directory | Regular | Other.

(** The kind of an entry as the marker selection sees it. *)
Definition kind_of (entry : SFTPAttributes) : kind :=
  if S_ISDIR (mode_or_0 (st_mode entry)) then Directory
  else if S_ISREG (mode_or_0 (st_mode entry)) then Regular
  else Other.

Definition kind_rank (k : kind) : Z :=
  match k with
  | Directory => 1%Z
  | Regular => 2%Z
  | Other => 3%Z
  end.

(** The composite order of the specification (section 4.4a): directories,
    then regular files, then the rest; equal kinds by file name. *)
Definition entry_le (a b : SFTPAttributes) : Prop :=
  (kind_rank (kind_of a) < kind_rank (kind_of b))%Z \/
  (kind_of a = kind_of b /\ String.leb (filename a) (filename b) = true).

Definition has_mode (entry : SFTPAttributes) : Prop :=
  st_mode entry <> None.

(** The key [_ls_sort] returns for an entry that has a mode. *)
Definition key_of (item : SFTPAttributes) : sort_key :=
  (kind_rank (kind_of item), filename item).

Definition item_le {A : Type} (x y : sort_key * A) : Prop :=
  key_le (fst x) (fst y) = true.

End Listing.

(** ** The completion cache: [CommandCompleter] *)

Module Completer.
Import PyStr.

(** What [get_completions] reads of a prompt_toolkit [Document]. *)
Record Document : Type := mkDocument {
  current_line : string;
  word_before_cursor : string
}.

Record Completion : Type := mkCompletion {
  text : string;
  start_position : Z;
  display : string;
  display_meta : string
}.

(** The attributes of a [CommandCompleter]; [invocations] is a ghost
    counter of the calls made to [word_gen]. *)
Record CommandCompleter : Type := mkCompleter {
  _last_word_count : Z;
  _word_cache : list string;
  invocations : nat
}.

Definition __init__ : CommandCompleter :=
  {| _last_word_count := (-1)%Z; _word_cache := []; invocations := 0 |}.

(** [len(document.current_line.split(' '))]. *)
Definition word_count (document : Document) : Z :=
  Z.of_nat (List.length (split space (current_line document))).

Definition completion_of (word_before : string) (a : string) : Completion :=
  {| text := a;
     start_position := (- Z.of_nat (String.length word_before))%Z;
     display := a;
     display_meta := "" |}.

Section Engine.
(** The word source; its first argument is the number of calls made to
    it before, so that it may answer differently over time. *)
Variable word_gen : nat -> Document -> res (list string).

(** The [if] at the head of [get_completions]. *)
Definition refresh (self : CommandCompleter) (document : Document)
  : res unit * CommandCompleter :=
  if negb (word_count document =? _last_word_count self)%Z then
    match word_gen (invocations self) document with
    | Raise e =>
        (Raise e,
         {| _last_word_count := _last_word_count self;
            _word_cache := _word_cache self;
            invocations := S (invocations self) |})
    | Ok words =>
        (Ok tt,
         {| _last_word_count := word_count document;
            _word_cache := words;
            invocations := S (invocations self) |})
    end
  else (Ok tt, self).

(** The generator run to its end. *)
Definition get_completions (self : CommandCompleter) (document : Document)
  : res (list Completion) * CommandCompleter :=
  match refresh self document with
  | (Raise e, self') => (Raise e, self')
  | (Ok _, self') =>
      let words := _word_cache self' in
      let before := lower (word_before_cursor document) in
      (Ok (map (completion_of before)
               (filter (fun a => contains before (lower a)) words)),
       self')
  end.

(** What one request did. *)
Record served : Type := mkServed {
  invoked : bool;
  candidates : list string;
  answer : res (list Completion)
}.

(** A sequence of requests on one instance. *)
Fixpoint serve (self : CommandCompleter) (requests : list Document)
  : list served :=
  match requests with
  | [] => []
  | document :: rest =>
      let '(r, self') := get_completions self document in
      {| invoked := negb (invocations self' =? invocations self)%nat;
         candidates := _word_cache self';
         answer := r |} :: serve self' rest
  end.

Definition returns_normally : Prop :=
  forall n document, exists words, word_gen n document = Ok words.
End Engine.

(** The specification's account: a request invokes the word source when
    its token count differs from that of the request before; [prev] is the
    count of the request before (the sentinel at first). *)
Fixpoint expected_invocations (prev : Z) (counts : list Z) : list bool :=
  match counts with
  | [] => []
  | n :: rest => negb (n =? prev)%Z :: expected_invocations n rest
  end.

(** A word source to run the completer on: the command names at the first
    word, nothing after. *)
Definition command_words (n : nat) (document : Document)
  : res (list string) :=
  if (word_count document =? 1)%Z
  then Ok ["quit"; "ls"; "cd"; "get"; "download"]
  else Ok [].

Definition typing_get : list Document :=
  [ {| current_line := "g"; word_before_cursor := "g" |};
    {| current_line := "ge"; word_before_cursor := "ge" |};
    {| current_line := "get "; word_before_cursor := "" |};
    {| current_line := "get a"; word_before_cursor := "a" |} ].

End Completer.

(** ** The session loop: [FTPClient.start_interactive] *)

Module Session.
Import PyStr Listing.

(** What the loop does to the outside, in order. *)
Inductive event : Type :=
| EvGetcwd
| EvPrompt
| EvListdir
| EvChdir (path : string)
| EvGet (remotepath localpath : string)
| EvPrint (line : string)
| EvClose.

(** What the outside answers during one turn of the loop.  [progress] is
    what entering [with progress:] does for a task labelled with the file
    name: the rich display starts, or raises (a label rich reads as markup
    with a stray closing tag raises its [MarkupError]).  The display is not
    part of the trace. *)
Record world : Type := mkWorld {
  getcwd : res (option string);
  prompt : res string;
  listdir_attr : res (list SFTPAttributes);
  chdir : string -> res unit;
  get : string -> string -> res unit;
  progress : string -> res unit
}.

(** [self._closed], [self._pwd], the local variables [fname] and
    [save_path] of [start_interactive] (unbound until first assigned),
    and the events so far. *)
Record client : Type := mkClient {
  _closed : bool;
  _pwd : string;
  fname : option string;
  save_path : option string;
  trace : list event
}.

(** The state [__init__] leaves, once connected. *)
Definition connected : client :=
  {| _closed := false; _pwd := ""; fname := None; save_path := None;
     trace := [] |}.

(** State and exceptions: what was done before a [raise] stays done. *)
Definition M (A : Type) : Type := client -> res A * client.

Definition ret {A} (a : A) : M A := fun st => (Ok a, st).

Definition bind {A B} (c : M A) (k : A -> M B) : M B :=
  fun st =>
    match c st with
    | (Ok a, st') => k a st'
    | (Raise e, st') => (Raise e, st')
    end.

Definition raise {A} (e : exn) : M A := fun st => (Raise e, st).

Definition lift {A} (r : res A) : M A := fun st => (r, st).

Definition emit (e : event) : M unit :=
  fun st =>
    (Ok tt,
     {| _closed := _closed st; _pwd := _pwd st; fname := fname st;
        save_path := save_path st; trace := trace st ++ [e] |}).

(** A call to the outside: it is recorded, then returns or raises. *)
Definition call {A} (e : event) (r : res A) : M A :=
  bind (emit e) (fun _ => lift r).

Definition print (line : string) : M unit := emit (EvPrint line).

Definition read {A} (f : client -> A) : M A := fun st => (Ok (f st), st).

Definition set_closed (b : bool) : M unit :=
  fun st =>
    (Ok tt,
     {| _closed := b; _pwd := _pwd st; fname := fname st;
        save_path := save_path st; trace := trace st |}).

Definition set_pwd (p : string) : M unit :=
  fun st =>
    (Ok tt,
     {| _closed := _closed st; _pwd := p; fname := fname st;
        save_path := save_path st; trace := trace st |}).

Definition set_names (f s : string) : M unit :=
  fun st =>
    (Ok tt,
     {| _closed := _closed st; _pwd := _pwd st; fname := Some f;
        save_path := Some s; trace := trace st |}).

(** [try: ... except IOError as err: ...]. *)
Definition except_IOError {A} (c : M A) (handler : string -> M A) : M A :=
  fun st =>
    match c st with
    | (Raise (IOError msg), st') => handler msg st'
    | other => other
    end.

Declare Scope session_scope.
Delimit Scope session_scope with session.
Notation "x <- c ;; k" := (bind c (fun x => k))
  (at level 61, c at next level, right associativity) : session_scope.
Notation "c ;;; k" := (bind c (fun _ => k))
  (at level 61, right associativity) : session_scope.
Local Open Scope session_scope.

Fixpoint print_all (lines : list string) : M unit :=
  match lines with
  | [] => ret tt
  | l :: rest => print l ;;; print_all rest
  end.

Definition ls (w : world) : M unit :=
  entries <- call EvListdir (listdir_attr w) ;;
  ordered <- lift (sorted key_lt _ls_sort entries) ;;
  print_all (map display_line ordered).

Definition _execute_safely {A} (cmd : M A) : M (bool * option A) :=
  except_IOError
    (a <- cmd ;; ret (true, Some a))
    (fun msg => print msg ;;; ret (false, None)).

(** The [try] holds [with progress:] and, inside it, the transfer: the
    display is started first, and [get] is called only when it did. *)
Definition download_file (w : world) (fname save_path : string) : M unit :=
  pwd <- read _pwd ;;
  let remote := join "/" [pwd; fname] in
  except_IOError
    (lift (progress w fname) ;;;
     call (EvGet remote save_path) (get w remote save_path))
    (fun msg => print msg).

Definition usage : string :=
  "invalid command format, use " ++ char dquote
    ++ "get <file> [save_location]" ++ char dquote.

Definition one_of (cmd : string) (names : list string) : bool :=
  existsb (String.eqb cmd) names.

(** Reading the local [fname]: unbound until a first assignment. *)
Definition read_fname : M string :=
  v <- read fname ;;
  match v with
  | Some f => ret f
  | None => raise (UnboundLocalError "fname")
  end.

Definition quits (cmd : string) : bool := one_of cmd ["q"; "quit"; "exit"].

(** The [if cmd in ...: ... elif ... else ...] chain. *)
Definition dispatch (w : world) (cmd : string) (args : list string) : M unit :=
  if quits cmd then set_closed true
  else if String.eqb cmd "ls" then ls w
  else if String.eqb cmd "cd" then
    match args with
    | [] => ret tt
    | a0 :: _ =>
        pwd <- read _pwd ;;
        let path := join "/" [pwd; a0] in
        _execute_safely (call (EvChdir path) (chdir w path)) ;;; ret tt
    end
  else if one_of cmd ["get"; "download"] then
    match args with
    | [a0; a1] =>
        set_names a0 a1 ;;; download_file w a0 a1
    | [a0] =>
        (* the right-hand side [args[0], f'./{fname}'] is evaluated
           before either name is assigned *)
        old <- read_fname ;;
        set_names a0 ("./" ++ old) ;;; download_file w a0 ("./" ++ old)
    | _ => print usage
    end
  else print "Unknown command".

(** [line = prompt(...).split(' ')], [cmd = line[0]] and
    [args = self._parse_args(' '.join(line[1:])) if len(line) > 1 else []]. *)
Definition command_of (typed : string) : res (string * list string) :=
  let line := split space typed in
  let cmd := hd "" line in
  if (1 <? List.length line)%nat then
    match Tokenizer._parse_args (join " " (tl line)) with
    | Ok args => Ok (cmd, args)
    | Raise e => Raise e
    end
  else Ok (cmd, []).

(** [self._client.getcwd() or '']. *)
Definition or_empty (cwd : option string) : string :=
  match cwd with
  | Some d => d
  | None => ""
  end.

(** The head of the [try]: refresh [self._pwd], read a line, split it. *)
Definition read_command (w : world) : M (string * list string) :=
  cwd <- call EvGetcwd (getcwd w) ;;
  set_pwd (or_empty cwd) ;;;
  typed <- call EvPrompt (prompt w) ;;
  lift (command_of typed).

(** The body of the [try] in one turn of the loop. *)
Definition iteration (w : world) : M unit :=
  ca <- read_command w ;;
  dispatch w (fst ca) (snd ca).

Definition close : M unit := emit EvClose.

Fixpoint count_close (t : list event) : nat :=
  match t with
  | [] => 0
  | EvClose :: rest => S (count_close rest)
  | _ :: rest => count_close rest
  end.

(** The client after the events [es]. *)
Definition record (st : client) (es : list event) : client :=
  {| _closed := _closed st; _pwd := _pwd st; fname := fname st;
     save_path := save_path st; trace := trace st ++ es |}.

(** A computation that neither closes the session nor touches
    [self._closed]. *)
Definition keeps_open {A} (c : M A) : Prop :=
  forall st r st',
    c st = (r, st') ->
    _closed st' = _closed st /\
    count_close (trace st') = count_close (trace st).

(** How a run of [start_interactive] ends: it returned, an exception left
    it, or it waits for input the script does not have. *)
Inductive outcome : Type :=
| Returned (st : client)
| Propagated (e : exn) (st : client)
| Waiting (st : client).

Definition final (o : outcome) : client :=
  match o with
  | Returned st | Propagated _ st | Waiting st => st
  end.

Definition after_loop (st : client) : outcome :=
  Returned (snd (close st)).

(** [while not self._closed: try: ... except KeyboardInterrupt: ...],
    then [self._client.close()].  One [world] of the script is used per
    turn. *)
Fixpoint start_interactive (script : list world) (st : client) : outcome :=
  if _closed st then after_loop st
  else
    match script with
    | [] => Waiting st
    | w :: rest =>
        match iteration w st with
        | (Ok _, st') => start_interactive rest st'
        | (Raise KeyboardInterrupt, st') =>
            after_loop (snd (set_closed true st'))
        | (Raise e, st') => Propagated e st'
        end
    end.

Definition printed (t : list event) : list string :=
  flat_map (fun e => match e with EvPrint l => [l] | _ => [] end) t.

Definition downloads (t : list event) : list (string * string) :=
  flat_map (fun e => match e with EvGet r l => [(r, l)] | _ => [] end) t.

Definition chdirs (t : list event) : list string :=
  flat_map (fun e => match e with EvChdir p => [p] | _ => [] end) t.

(** The places of a turn where an interrupt can be raised: the calls to
    [getcwd], [prompt], [listdir_attr] (for [ls]), [chdir] (for [cd]), and
    for a download the start of the display and, once it started, [get]. *)
Inductive interrupted (w : world) (st : client) : Prop :=
| In_getcwd :
    getcwd w = Raise KeyboardInterrupt -> interrupted w st
| In_prompt cwd :
    getcwd w = Ok cwd ->
    prompt w = Raise KeyboardInterrupt -> interrupted w st
| In_listdir cwd typed args :
    getcwd w = Ok cwd -> prompt w = Ok typed ->
    command_of typed = Ok ("ls", args) ->
    listdir_attr w = Raise KeyboardInterrupt -> interrupted w st
| In_chdir cwd typed a0 args :
    getcwd w = Ok cwd -> prompt w = Ok typed ->
    command_of typed = Ok ("cd", a0 :: args) ->
    chdir w (join "/" [or_empty cwd; a0]) = Raise KeyboardInterrupt ->
    interrupted w st
| In_get_2 cwd typed cmd a0 a1 :
    getcwd w = Ok cwd -> prompt w = Ok typed ->
    command_of typed = Ok (cmd, [a0; a1]) ->
    one_of cmd ["get"; "download"] = true ->
    progress w a0 = Ok tt ->
    get w (join "/" [or_empty cwd; a0]) a1 = Raise KeyboardInterrupt ->
    interrupted w st
| In_get_1 cwd typed cmd a0 old :
    getcwd w = Ok cwd -> prompt w = Ok typed ->
    command_of typed = Ok (cmd, [a0]) ->
    one_of cmd ["get"; "download"] = true ->
    fname st = Some old ->
    progress w a0 = Ok tt ->
    get w (join "/" [or_empty cwd; a0]) ("./" ++ old) = Raise KeyboardInterrupt ->
    interrupted w st
| In_progress_2 cwd typed cmd a0 a1 :
    getcwd w = Ok cwd -> prompt w = Ok typed ->
    command_of typed = Ok (cmd, [a0; a1]) ->
    one_of cmd ["get"; "download"] = true ->
    progress w a0 = Raise KeyboardInterrupt ->
    interrupted w st
| In_progress_1 cwd typed cmd a0 old :
    getcwd w = Ok cwd -> prompt w = Ok typed ->
    command_of typed = Ok (cmd, [a0]) ->
    one_of cmd ["get"; "download"] = true ->
    fname st = Some old ->
    progress w a0 = Raise KeyboardInterrupt ->
    interrupted w st.

(** Some modes, listings and worlds to run the loop on. *)
Definition dir_mode : Z := 16877.   (* 0o040755 *)
Definition file_mode : Z := 33188.  (* 0o100644 *)

Definition example_listing : list SFTPAttributes :=
  [ {| filename := "b"; st_mode := Some dir_mode |};
    {| filename := "a"; st_mode := Some file_mode |};
    {| filename := "a"; st_mode := Some dir_mode |} ].

(** The middle entry came without a permissions field. *)
Definition modeless_listing : list SFTPAttributes :=
  [ {| filename := "b"; st_mode := Some dir_mode |};
    {| filename := "x"; st_mode := None |};
    {| filename := "a"; st_mode := Some file_mode |} ].

Definition listing_world (r : res (list SFTPAttributes)) : world :=
  {| getcwd := Ok (Some "/home");
     prompt := Ok "ls";
     listdir_attr := r;
     chdir := fun _ => Ok tt;
     get := fun _ _ => Ok tt;
     progress := fun _ => Ok tt |}.

Definition interrupting : world :=
  {| getcwd := Ok (Some "/home");
     prompt := Raise KeyboardInterrupt;
     listdir_attr := Ok [];
     chdir := fun _ => Ok tt;
     get := fun _ _ => Ok tt;
     progress := fun _ => Ok tt |}.

Definition refusing : world :=
  {| getcwd := Ok (Some "/home");
     prompt := Ok "cd nowhere";
     listdir_attr := Ok [];
     chdir := fun _ => Raise (IOError "No such file");
     get := fun _ _ => Ok tt;
     progress := fun _ => Ok tt |}.

(** A world in which the operator types [typed] and every call returns. *)
Definition typing (typed : string) : world :=
  {| getcwd := Ok (Some "/home");
     prompt := Ok typed;
     listdir_attr := Ok [];
     chdir := fun _ => Ok tt;
     get := fun _ _ => Ok tt;
     progress := fun _ => Ok tt |}.

End Session.

(** ** Quoting and escaping an argument *)

Module Encoding.
Import PyStr Tokenizer.

(** A backslash in front of every character. *)
Fixpoint escape_all (s : string) : string :=
  match s with
  | EmptyString => EmptyString
  | String c rest => String backslash (String c (escape_all rest))
  end.

(** [s] between two quote characters [q]. *)
Definition quoted_with (q : ascii) (s : string) : string :=
  String q (s ++ char q).

(** The characters that may stand between two [q]. *)
Definition quotable (q : ascii) (s : string) : Prop :=
  Forall (fun c => c <> q /\ c <> backslash) (list_ascii_of_string s).

(** What a single argument [s] tokenizes to: an empty one leaves no token. *)
Definition single (s : string) : list string :=
  if truthy s then [s] else [].

End Encoding.

(** ** The word source: [FTPClient.get_words] *)

Module Words.
Import PyStr Listing Completer.

Definition commands : list string := ["quit"; "ls"; "cd"; "get"; "download"].

(** [f'"{entry.filename}"' if ' ' in entry.filename else entry.filename]:
    a name with a space is offered between double quotes. *)
Definition candidate (entry : SFTPAttributes) : string :=
  if contains " " (filename entry)
  then char dquote ++ filename entry ++ char dquote
  else filename entry.

Definition is_dir (entry : SFTPAttributes) : bool :=
  S_ISDIR (mode_or_0 (st_mode entry)).

Definition is_reg (entry : SFTPAttributes) : bool :=
  S_ISREG (mode_or_0 (st_mode entry)).

(** [FTPClient.get_words]; [listing] is what [self._client.listdir_attr()]
    returns or raises when it is called, which only the two inner branches
    do. *)
Definition get_words (listing : res (list SFTPAttributes))
           (document : Document) : res (list string) :=
  let words := split space (current_line document) in
  if (List.length words =? 1)%nat then Ok commands
  else if (List.length words =? 2)%nat then
    if String.eqb (hd "" words) "cd" then
      match listing with
      | Raise e => Raise e
      | Ok entries => Ok (map candidate (filter is_dir entries))
      end
    else if String.eqb (hd "" words) "get"
            || String.eqb (hd "" words) "download" then
      match listing with
      | Raise e => Raise e
      | Ok entries => Ok (map candidate (filter is_reg entries))
      end
    else Ok []
  else Ok [].

(** A file name the tokenizer gives back from its candidate: not empty, no
    double quote, no backslash, and a single quote only beside a space. *)
Definition completable (name : string) : Prop :=
  name <> "" /\
  Forall (fun c => c <> dquote /\ c <> backslash) (list_ascii_of_string name) /\
  (contains " " name = false ->
   Forall (fun c => c <> squote) (list_ascii_of_string name)).

(** A listing and a word source to run the completer on. *)
Definition home_listing : list SFTPAttributes :=
  [ {| filename := "docs"; st_mode := Some 16877%Z |};
    {| filename := "my file.txt"; st_mode := Some 33188%Z |};
    {| filename := "lost"; st_mode := None |} ].

Definition flaky (n : nat) (document : Document) : res (list string) :=
  match n with
  | 0 => Raise (IOError "Socket is closed")
  | _ => Ok ["docs"]
  end.

End Words.

(** ** The cache rule of the completer *)

Module Cache.
Import PyStr Listing Completer Words.

(** The completions [get_completions] yields from a list of words. *)
Definition offer (words : list string) (document : Document)
  : list Completion :=
  let before := lower (word_before_cursor document) in
  map (completion_of before)
      (filter (fun a => contains before (lower a)) words).

(** The request returned: it raised nothing. *)
Definition returned (s : served) : bool :=
  match answer s with
  | Ok _ => true
  | Raise _ => false
  end.

(** The number of calls made to the word source by requests with these
    flags. *)
Fixpoint calls (flags : list bool) : nat :=
  match flags with
  | [] => 0
  | true :: rest => S (calls rest)
  | false :: rest => calls rest
  end.

(** The rule as the specification states it: a request calls the word
    source exactly when its count differs from that of the request before. *)
Definition previous_count_rule (word_gen : nat -> Document -> res (list string))
           (requests : list Document) : Prop :=
  map invoked (serve word_gen __init__ requests)
  = expected_invocations (-1) (map word_count requests).

(** The rule with failures: a request is compared with the last request
    before it that returned; [prev] is the count of that one (the sentinel
    while none returned), each request comes with its count and whether it
    returned. *)
Fixpoint expected_after_failures (prev : Z) (requests : list (Z * bool))
  : list bool :=
  match requests with
  | [] => []
  | (n, ok) :: rest =>
      negb (n =? prev)%Z :: expected_after_failures (if ok then n else prev) rest
  end.

(** [get_words] as the word source, over a session whose listing call
    fails the first time. *)
Definition listing_fails_once (n : nat) (document : Document)
  : res (list string) :=
  get_words (match n with
             | 0 => Raise (IOError "Socket is closed")
             | S _ => Ok home_listing
             end) document.

Definition cd_requests : list Document :=
  [ {| current_line := "cd "; word_before_cursor := "" |};
    {| current_line := "cd d"; word_before_cursor := "d" |} ].

End Cache.

(** ** Turns of the loop *)

Module Turn.
Import PyStr Listing Session.

(** A computation that leaves [f] of the client as it was. *)
Definition keeps {B A : Type} (f : client -> B) (c : M A) : Prop :=
  forall st r st', c st = (r, st') -> f st' = f st.


Definition no_space (s : string) : Prop :=
  Forall (fun c => c <> space) (list_ascii_of_string s).

(** The client once [self._pwd] is refreshed and the line read. *)
Definition at_dispatch (st : client) (cwd : option string) : client :=
  record (snd (set_pwd (or_empty cwd) st)) [EvGetcwd; EvPrompt].

(** The client once [fname] and [save_path] are assigned. *)
Definition named (f s : string) (st : client) : client :=
  snd (set_names f s st).

Definition failing_download : world :=
  {| getcwd := Ok None;
     prompt := Ok "get report.pdf out.pdf";
     listdir_attr := Ok [];
     chdir := fun _ => Ok tt;
     get := fun _ _ => Raise (IOError "No such file");
     progress := fun _ => Ok tt |}.

Definition failing_listing : world :=
  {| getcwd := Ok (Some "/home");
     prompt := Ok "ls";
     listdir_attr := Raise (IOError "Socket is closed");
     chdir := fun _ => Ok tt;
     get := fun _ _ => Ok tt;
     progress := fun _ => Ok tt |}.


(** Before any [cd], paramiko's [getcwd] returns [None]. *)
Definition fresh_cd : world :=
  {| getcwd := Ok None;
     prompt := Ok "cd docs";
     listdir_attr := Ok [];
     chdir := fun _ => Ok tt;
     get := fun _ _ => Ok tt;
     progress := fun _ => Ok tt |}.

End Turn.

(** ** Entries the sort does not tell apart *)

Module Order.
Import PyStr Listing.

Definition key_eqb (a b : sort_key) : bool :=
  (fst a =? fst b)%Z && String.eqb (snd a) (snd b).

(** Entries the sort key does not tell apart: same kind, same name. *)
Definition same_key (a e : SFTPAttributes) : bool :=
  key_eqb (key_of e) (key_of a).

Definition twins : list SFTPAttributes :=
  [ {| filename := "a"; st_mode := Some 33188%Z |};
    {| filename := "b"; st_mode := Some 16877%Z |};
    {| filename := "a"; st_mode := Some 33261%Z |} ].

End Order.

(** * Properties *)

(** ** The tokenizer *)

Module TokenizerFacts.
Import PyStr Tokenizer.
Local Open Scope string_scope.

Lemma prefix_append (s t : string) : String.prefix s (s ++ t) = true.
Proof.
  induction s as [|c s IH]; simpl.
  - destruct t; reflexivity.
  - destruct (ascii_dec c c) as [_|n]; [exact IH | now elim n].
Qed.

Lemma classify_unterminated i :
  classify (Raise (ValueError (unterminated_msg i))) = Some (inl UnterminatedQuote).
Proof.
  unfold classify, unterminated_msg. now rewrite prefix_append.
Qed.

Lemma classify_dangling i :
  classify (Raise (ValueError (dangling_msg i))) = Some (inl DanglingEscape).
Proof.
  unfold classify, dangling_msg. rewrite prefix_append. reflexivity.
Qed.

Lemma prepend_emit p a r : prepend (p ++ [a])%list r = prepend p (emit a r).
Proof. destruct r; simpl; [reflexivity|]. now rewrite <- app_assoc. Qed.

Lemma scan_refines : forall l st q, quote_rel (quote st) q ->
  classify (finish (fold_left loop_body l st))
  = Some (prepend (parsed st) (reference_scan (arg st) (escaping st) q l)).
Proof.
  induction l as [|c l IH]; intros [p a e qu i] q Hq; simpl in *.
  - unfold finish; simpl.
    inversion Hq; subst; simpl;
      try apply classify_unterminated.
    destruct e; [apply classify_dangling|].
    destruct a; simpl; [now rewrite app_nil_r | reflexivity].
  - unfold loop_body at 2; simpl.
    destruct e.
    { now rewrite (IH _ q). }
    destruct (Ascii.eqb c backslash) eqn:Hb.
    { now rewrite (IH _ q). }
    inversion Hq; subst; simpl.
    + unfold is_quote_char, quote_of_char.
      destruct (Ascii.eqb c squote) eqn:Hs.
      * apply Ascii.eqb_eq in Hs; subst c. simpl.
        now rewrite (IH _ SingleQuote) by constructor.
      * destruct (Ascii.eqb c dquote) eqn:Hd; simpl.
        -- apply Ascii.eqb_eq in Hd; subst c.
           now rewrite (IH _ DoubleQuote) by constructor.
        -- destruct (Ascii.eqb c space) eqn:Hsp.
           ++ destruct a; simpl.
              ** now rewrite (IH _ NoQuote) by constructor.
              ** rewrite (IH _ NoQuote) by constructor. simpl.
                 now rewrite prepend_emit.
           ++ now rewrite (IH _ NoQuote) by constructor.
    + destruct (Ascii.eqb c squote) eqn:Hs.
      * now rewrite (IH _ NoQuote) by constructor.
      * now rewrite (IH _ SingleQuote) by constructor.
    + destruct (Ascii.eqb c dquote) eqn:Hd.
      * now rewrite (IH _ NoQuote) by constructor.
      * now rewrite (IH _ DoubleQuote) by constructor.
Qed.

Lemma parse_args_refines input :
  classify (_parse_args input) = Some (reference_tokenize input).
Proof.
  unfold _parse_args, scan, reference_tokenize.
  rewrite (scan_refines _ initial NoQuote) by constructor.
  simpl. now destruct (reference_scan _ _ _ _).
Qed.

Lemma classify_Ok r toks : classify r = Some (inr toks) -> r = Ok toks.
Proof.
  destruct r as [a|e]; simpl.
  - now intros [= ->].
  - destruct e; try discriminate.
    destruct (String.prefix _ _); [discriminate|].
    destruct (String.prefix _ _); discriminate.
Qed.

Lemma plain_step c :
  plain_char c = true ->
  Ascii.eqb c backslash = false /\ quote_of_char c = NoQuote.
Proof.
  unfold plain_char, quote_of_char.
  destruct (Ascii.eqb c dquote), (Ascii.eqb c squote), (Ascii.eqb c backslash);
    simpl; intros; try discriminate; auto.
Qed.

Lemma append_nonempty a c : a ++ char c <> "".
Proof. destruct a; discriminate. Qed.

Lemma append_assoc (a b c : string) : (a ++ b) ++ c = a ++ b ++ c.
Proof. induction a; simpl; congruence. Qed.

Lemma reference_scan_plain : forall l,
  Forall (fun c => plain_char c = true) l ->
  forall buf, exists toks,
    reference_scan buf false NoQuote l = inr toks /\
    (buf <> "" ->
     toks <> [] /\ join " " toks = buf ++ text (squeeze true false l)) /\
    (buf = "" ->
     forall seen,
       text (squeeze seen seen l)
       = match toks with
         | [] => ""
         | _ => (if seen then " " else "") ++ join " " toks
         end).
Proof.
  induction 1 as [|c l Hc Hl IH]; intros buf.
  - simpl. destruct buf as [|b buf].
    + exists []. split; [reflexivity|]. split; [congruence|].
      intros _ seen. reflexivity.
    + exists [String b buf]. split; [reflexivity|]. split; [|congruence].
      intros _. split; [congruence|]. simpl. f_equal. clear.
      induction buf; simpl; congruence.
  - destruct (plain_step c Hc) as [Hb Hq].
    cbn [reference_scan closes]. rewrite Hb, Hq.
    destruct (Ascii.eqb c space) eqn:Hsp.
    + apply Ascii.eqb_eq in Hsp; subst c.
      destruct (IH "") as (toks & Hscan & _ & Hempty).
      specialize (Hempty eq_refl).
      destruct buf as [|b buf].
      * exists toks. split; [exact Hscan|]. split; [congruence|].
        intros _ seen. cbn [squeeze]. simpl Ascii.eqb. cbn iota.
        apply Hempty.
      * rewrite Hscan. exists (String b buf :: toks).
        split; [reflexivity|]. split; [|congruence].
        intros _. split; [congruence|].
        cbn [squeeze]. simpl Ascii.eqb. cbn iota.
        rewrite (Hempty true).
        destruct toks as [|t toks]; simpl.
        -- f_equal. clear. induction buf; simpl; congruence.
        -- reflexivity.
    + destruct (IH (buf ++ char c)) as (toks & Hscan & Hfull & _).
      destruct (Hfull (append_nonempty buf c)) as [Hne Hjoin].
      exists toks. split; [exact Hscan|].
      split.
      * intros _. split; [exact Hne|].
        rewrite Hjoin. cbn [squeeze]. rewrite Hsp.
        simpl. now rewrite append_assoc.
      * intros -> seen. cbn [squeeze]. rewrite Hsp.
        simpl in Hjoin.
        destruct toks as [|t toks]; [congruence|].
        rewrite Hjoin. destruct seen; reflexivity.
Qed.

(** C4. For every input string the tokenizer of the source and the reference
    scan of the specification (token buffer, escaping flag, active quote;
    rules in priority order) give the same result; a quote may open and
    close inside a token, the escape character works inside and outside
    quotes, and the empty input gives no token. *)
Theorem parse_args_equals_reference_machine :
  (forall input : string,
      classify (_parse_args input) = Some (reference_tokenize input)) /\
  _parse_args ("ab" ++ String dquote ("c d" ++ String dquote "e"))
    = Ok ["abc de"] /\
  _parse_args "a\ b" = Ok ["a b"] /\
  _parse_args (String dquote ("a\" ++ String dquote ("b" ++ char dquote)))
    = Ok [String "a" (String dquote "b")] /\
  _parse_args (String dquote ("my file.txt" ++ char dquote))
    = Ok ["my file.txt"] /\
  _parse_args "" = Ok [].
Proof.
  split; [exact parse_args_refines|].
  repeat split; reflexivity.
Qed.

(** C5, as stated, fails: after a quote and a backslash the escaping flag
    is set at the end of the input, and the error is the unterminated
    quote. *)
Lemma end_of_input_rule_fails_on_quote_backslash :
  ~ end_of_input_rule (String dquote "\").
Proof.
  unfold end_of_input_rule. intros (_ & [_ H] & _).
  specialize (H eq_refl). discriminate H.
Qed.

Lemma fails_with_finish st :
  (fails_with (finish st) UnterminatedQuote <-> quote st <> None) /\
  (fails_with (finish st) DanglingEscape
   <-> escaping st = true /\ quote st = None) /\
  (finish st = Ok (parsed st ++ last_token st)%list
   <-> quote st = None /\ escaping st = false).
Proof.
  unfold fails_with, finish, last_token.
  destruct (quote st) as [q|].
  - rewrite classify_unterminated.
    repeat split; try congruence; intros; try discriminate.
    + destruct H; discriminate.
    + destruct H; discriminate.
  - destruct (escaping st).
    + rewrite classify_dangling.
      repeat split; try congruence; intros; try discriminate.
      destruct H; discriminate.
    + simpl. repeat split; try congruence; intros; try discriminate.
      * destruct H; discriminate.
      * destruct (truthy (arg st)); [reflexivity | now rewrite app_nil_r].
Qed.

(** C5, amended. At the end of the input the tokenizer fails with the
    unterminated-quote error exactly when a quote is still open, with the
    dangling-escape error exactly when the escaping flag is set and no quote
    is open, and returns the tokens, the non-empty remaining buffer last,
    exactly when neither holds. *)
Theorem end_of_input_handling (input : string) :
  (fails_with (_parse_args input) UnterminatedQuote
   <-> quote (scan input) <> None) /\
  (fails_with (_parse_args input) DanglingEscape
   <-> escaping (scan input) = true /\ quote (scan input) = None) /\
  (_parse_args input
   = Ok (parsed (scan input) ++ last_token (scan input))%list
   <-> quote (scan input) = None /\ escaping (scan input) = false).
Proof. apply fails_with_finish. Qed.

(** C6. For an input without quote and escape characters, the tokens joined
    with single spaces are the input with its runs of spaces collapsed and
    its leading and trailing spaces removed. *)
Theorem tokenize_join_collapses_spaces (input : string) :
  plain input ->
  exists toks,
    _parse_args input = Ok toks /\
    join " " toks = collapse_spaces input.
Proof.
  intros Hplain.
  destruct (reference_scan_plain _ Hplain "") as (toks & Hscan & _ & Hjoin).
  exists toks. split.
  - apply classify_Ok. rewrite parse_args_refines.
    unfold reference_tokenize. now rewrite Hscan.
  - unfold collapse_spaces. fold (text (squeeze false false (list_ascii_of_string input))).
    rewrite (Hjoin eq_refl false). now destruct toks.
Qed.

Lemma tokenize_join_collapses_spaces_witness :
  plain "  get   a.txt  b " /\
  exists toks,
    _parse_args "  get   a.txt  b " = Ok toks /\
    join " " toks = collapse_spaces "  get   a.txt  b ".
Proof.
  assert (H : plain "  get   a.txt  b ")
    by (unfold plain; simpl; repeat constructor).
  split; [exact H|].
  exact (tokenize_join_collapses_spaces "  get   a.txt  b " H).
Defined.

End TokenizerFacts.

(** ** The order of the listing *)

Module ListingFacts.
Import PyStr Listing.
Local Open Scope string_scope.

Lemma ascii_compare_refl a : Ascii.compare a a = Eq.
Proof. unfold Ascii.compare. apply N.compare_refl. Qed.

Lemma ascii_compare_lt_trans a b c :
  Ascii.compare a b = Lt -> Ascii.compare b c = Lt -> Ascii.compare a c = Lt.
Proof.
  unfold Ascii.compare. rewrite !N.compare_lt_iff. apply N.lt_trans.
Qed.

Lemma string_compare_lt_trans : forall s1 s2 s3,
  String.compare s1 s2 = Lt -> String.compare s2 s3 = Lt ->
  String.compare s1 s3 = Lt.
Proof.
  induction s1 as [|a s1 IH]; intros [|b s2] [|c s3]; simpl;
    try discriminate; auto.
  destruct (Ascii.compare a b) eqn:Hab; try discriminate;
    destruct (Ascii.compare b c) eqn:Hbc; try discriminate; intros H1 H2.
  - apply Ascii.compare_eq_iff in Hab, Hbc; subst.
    rewrite ascii_compare_refl. eauto.
  - apply Ascii.compare_eq_iff in Hab; subst. now rewrite Hbc.
  - apply Ascii.compare_eq_iff in Hbc; subst. now rewrite Hab.
  - now rewrite (ascii_compare_lt_trans _ _ _ Hab Hbc).
Qed.

Lemma string_compare_refl : forall s, String.compare s s = Eq.
Proof.
  induction s as [|a s IH]; simpl; [reflexivity|].
  now rewrite ascii_compare_refl.
Qed.

Lemma string_ltb_irrefl s : String.ltb s s = false.
Proof. unfold String.ltb. now rewrite string_compare_refl. Qed.

Lemma string_ltb_trans s1 s2 s3 :
  String.ltb s1 s2 = true -> String.ltb s2 s3 = true -> String.ltb s1 s3 = true.
Proof.
  unfold String.ltb.
  destruct (String.compare s1 s2) eqn:H12; try discriminate.
  destruct (String.compare s2 s3) eqn:H23; try discriminate.
  now rewrite (string_compare_lt_trans _ _ _ H12 H23).
Qed.

Lemma string_ltb_connected s1 s2 :
  String.ltb s1 s2 = false -> String.ltb s2 s1 = false -> s1 = s2.
Proof.
  unfold String.ltb. rewrite (String.compare_antisym s2 s1).
  destruct (String.compare s1 s2) eqn:H; simpl; try discriminate.
  intros _ _. now apply String.compare_eq_iff.
Qed.

Lemma string_ltb_leb s1 s2 :
  String.ltb s2 s1 = false -> String.leb s1 s2 = true.
Proof.
  unfold String.ltb, String.leb. rewrite (String.compare_antisym s1 s2).
  now destruct (String.compare s2 s1).
Qed.

(** [key_lt] is a strict total order on keys. *)
Lemma key_lt_asym a b : key_lt a b = true -> key_lt b a = false.
Proof.
  unfold key_lt. destruct a as [ra fa], b as [rb fb]; simpl.
  intros H. apply orb_true_iff in H. apply orb_false_iff.
  destruct H as [H|H].
  - apply Z.ltb_lt in H. split; [apply Z.ltb_ge; lia|].
    apply andb_false_iff. left. apply Z.eqb_neq. lia.
  - apply andb_true_iff in H. destruct H as [He Hl].
    apply Z.eqb_eq in He. subst. split; [apply Z.ltb_irrefl|].
    apply andb_false_iff. right.
    destruct (String.ltb fb fa) eqn:Hb; [|reflexivity].
    pose proof (string_ltb_trans _ _ _ Hl Hb) as Hc.
    now rewrite string_ltb_irrefl in Hc.
Qed.

Lemma key_le_trans a b c :
  key_le a b = true -> key_le b c = true -> key_le a c = true.
Proof.
  unfold key_le, key_lt. destruct a as [ra fa], b as [rb fb], c as [rc fc].
  simpl. rewrite !negb_true_iff, !orb_false_iff, !andb_false_iff.
  rewrite !Z.ltb_ge, !Z.eqb_neq.
  intros [H1 H1'] [H2 H2']. split; [lia|].
  destruct (Z.eq_dec rc ra) as [->|]; [right | now left].
  assert (rb = ra) by lia. subst rb.
  destruct H1' as [?|H1']; [congruence|].
  destruct H2' as [?|H2']; [congruence|].
  destruct (String.ltb fc fa) eqn:Hca; [|reflexivity].
  destruct (String.ltb fa fb) eqn:Hab.
  - pose proof (string_ltb_trans _ _ _ Hca Hab). congruence.
  - pose proof (string_ltb_connected _ _ H1' Hab). subst. congruence.
Qed.

Section InsertionSort.
Context {A : Type}.

Lemma insert_perm (x : sort_key * A) l : Permutation (x :: l) (insert key_lt x l).
Proof.
  induction l as [|y l IH]; simpl; [constructor; constructor|].
  destruct (key_lt (fst y) (fst x)); [|reflexivity].
  rewrite perm_swap. now constructor.
Qed.

Lemma stable_sort_perm (d : list (sort_key * A)) : Permutation d (stable_sort key_lt d).
Proof.
  induction d as [|x d IH]; simpl; [constructor|].
  rewrite <- insert_perm. now constructor.
Qed.

Lemma insert_sorted (x : sort_key * A) l :
  StronglySorted item_le l -> StronglySorted item_le (insert key_lt x l).
Proof.
  induction 1 as [|y l Hs IH Hy]; simpl.
  - repeat constructor.
  - destruct (key_lt (fst y) (fst x)) eqn:Hlt.
    + constructor; [exact IH|].
      rewrite <- insert_perm. constructor; [|exact Hy].
      unfold item_le, key_le. now rewrite (key_lt_asym _ _ Hlt).
    + assert (Hxy : item_le x y) by (unfold item_le, key_le; now rewrite Hlt).
      constructor; [now constructor|].
      constructor; [exact Hxy|].
      eapply Forall_impl; [|exact Hy].
      intros z Hz. unfold item_le in *. eapply key_le_trans; eauto.
Qed.

Lemma stable_sort_sorted (d : list (sort_key * A)) :
  StronglySorted item_le (stable_sort key_lt d).
Proof.
  induction d as [|x d IH]; simpl; [constructor|].
  now apply insert_sorted.
Qed.
End InsertionSort.

(** With a mode, the key is the rank of the kind and the file name. *)
Lemma ls_sort_with_mode item :
  has_mode item ->
  _ls_sort item = Ok (kind_rank (kind_of item), filename item).
Proof.
  unfold has_mode, _ls_sort, kind_of. destruct (st_mode item) as [m|]; [|congruence].
  intros _. simpl. destruct (S_ISDIR m); [reflexivity|].
  now destruct (S_ISREG m).
Qed.

Lemma decorate_with_modes listing :
  Forall has_mode listing ->
  decorate _ls_sort listing = Ok (map (fun x => (key_of x, x)) listing).
Proof.
  induction 1 as [|x l Hx Hl IH]; simpl; [reflexivity|].
  now rewrite (ls_sort_with_mode x Hx), IH.
Qed.

Lemma decorate_without_mode listing :
  ~ Forall has_mode listing ->
  decorate _ls_sort listing = Raise TypeError.
Proof.
  induction listing as [|x l IH]; intros H.
  - elim H. constructor.
  - simpl. unfold _ls_sort at 1. destruct (st_mode x) as [m|] eqn:Hm; [|reflexivity].
    assert (Hl : ~ Forall has_mode l).
    { intros Hl. apply H. constructor; [unfold has_mode; congruence | exact Hl]. }
    rewrite (IH Hl).
    destruct (S_ISDIR m); [reflexivity|]. now destruct (S_ISREG m).
Qed.

Lemma kind_rank_inj k1 k2 : kind_rank k1 = kind_rank k2 -> k1 = k2.
Proof. destruct k1, k2; simpl; congruence || lia. Qed.

Lemma key_le_entry_le a b :
  key_le (key_of a) (key_of b) = true -> entry_le a b.
Proof.
  unfold key_le, key_lt, key_of, entry_le. simpl.
  rewrite negb_true_iff, orb_false_iff, andb_false_iff, Z.ltb_ge, Z.eqb_neq.
  intros [H1 H2].
  destruct (Z.eq_dec (kind_rank (kind_of a)) (kind_rank (kind_of b))) as [e|n].
  - right. split; [now apply kind_rank_inj|].
    destruct H2 as [H2|H2]; [congruence|]. now apply string_ltb_leb.
  - left. lia.
Qed.

Lemma sorted_with_modes listing :
  Forall has_mode listing ->
  exists ordered,
    sorted key_lt _ls_sort listing = Ok ordered /\
    Permutation listing ordered /\
    StronglySorted entry_le ordered.
Proof.
  intros H. unfold sorted. rewrite (decorate_with_modes _ H).
  set (d := map (fun x => (key_of x, x)) listing).
  exists (map snd (stable_sort key_lt d)). split; [reflexivity|]. split.
  - replace listing with (map snd d) at 1.
    + apply Permutation_map, stable_sort_perm.
    + unfold d. rewrite map_map. simpl. apply map_id.
  - assert (Hk : Forall (fun p : sort_key * SFTPAttributes => fst p = key_of (snd p))
                   (stable_sort key_lt d)).
    { eapply Permutation_Forall; [apply stable_sort_perm|].
      unfold d. apply Forall_forall. intros p Hp.
      apply in_map_iff in Hp. destruct Hp as (x & <- & _). reflexivity. }
    pose proof (stable_sort_sorted d) as Hs.
    induction Hs as [|p l Hs IH Hp]; simpl; [constructor|].
    inversion Hk as [|? ? Hkp Hkl]; subst.
    constructor; [now apply IH|].
    apply Forall_map. rewrite Forall_forall in *. intros q Hq.
    apply key_le_entry_le. rewrite <- Hkp, <- (Hkl q Hq). now apply Hp.
Qed.

End ListingFacts.

(** ** The session loop *)

Module SessionFacts.
Import PyStr Listing Session ListingFacts.
Local Open Scope string_scope.
Local Open Scope session_scope.

Lemma count_close_app t1 t2 :
  count_close (t1 ++ t2) = count_close t1 + count_close t2.
Proof.
  induction t1 as [|e t1 IH]; simpl; [reflexivity|].
  destruct e; simpl; lia.
Qed.

Create HintDb session.

Lemma keeps_open_ret {A} (a : A) : keeps_open (ret a).
Proof. intros st r st' [= <- <-]. auto. Qed.

Lemma keeps_open_raise {A} e : keeps_open (@raise A e).
Proof. intros st r st' [= <- <-]. auto. Qed.

Lemma keeps_open_lift {A} (r : res A) : keeps_open (lift r).
Proof. intros st r' st' [= <- <-]. auto. Qed.

Lemma keeps_open_read {A} (f : client -> A) : keeps_open (read f).
Proof. intros st r st' [= <- <-]. auto. Qed.

Lemma keeps_open_set_pwd p : keeps_open (set_pwd p).
Proof. intros st r st' [= <- <-]. auto. Qed.

Lemma keeps_open_set_names f s : keeps_open (set_names f s).
Proof. intros st r st' [= <- <-]. auto. Qed.

Lemma keeps_open_emit e : e <> EvClose -> keeps_open (emit e).
Proof.
  intros He st r st' [= <- <-]. simpl. split; [reflexivity|].
  rewrite count_close_app. destruct e; simpl; try lia. congruence.
Qed.

Lemma keeps_open_print l : keeps_open (print l).
Proof. apply keeps_open_emit. discriminate. Qed.

Lemma keeps_open_bind {A B} (c : M A) (k : A -> M B) :
  keeps_open c -> (forall a, keeps_open (k a)) -> keeps_open (bind c k).
Proof.
  intros Hc Hk st r st'. unfold bind.
  destruct (c st) as [[a|e] st1] eqn:E; intros H.
  - destruct (Hc _ _ _ E) as [H1 H2], (Hk a _ _ _ H) as [H3 H4].
    split; congruence.
  - injection H as <- <-. exact (Hc _ _ _ E).
Qed.

Lemma keeps_open_except {A} (c : M A) h :
  keeps_open c -> (forall m, keeps_open (h m)) -> keeps_open (except_IOError c h).
Proof.
  intros Hc Hh st r st'. unfold except_IOError.
  destruct (c st) as [[a|e] st1] eqn:E.
  - intros [= <- <-]. exact (Hc _ _ _ E).
  - destruct (Hc _ _ _ E) as [H1 H2].
    destruct e; try (intros [= <- <-]; auto).
    intros H. destruct (Hh _ _ _ _ H). split; congruence.
Qed.

#[local] Hint Resolve keeps_open_ret keeps_open_raise keeps_open_lift
  keeps_open_read keeps_open_set_pwd keeps_open_set_names keeps_open_print
  keeps_open_bind keeps_open_except : session.

Lemma keeps_open_call {A} e (r : res A) : e <> EvClose -> keeps_open (call e r).
Proof.
  intros He. unfold call. apply keeps_open_bind; auto with session.
  now apply keeps_open_emit.
Qed.

Lemma keeps_open_print_all lines : keeps_open (print_all lines).
Proof. induction lines; simpl; auto with session. Qed.

Lemma keeps_open_ls w : keeps_open (ls w).
Proof.
  unfold ls. apply keeps_open_bind; [apply keeps_open_call; discriminate|].
  intros entries. apply keeps_open_bind; auto using keeps_open_print_all with session.
Qed.

Lemma keeps_open_download w f s : keeps_open (download_file w f s).
Proof.
  unfold download_file. apply keeps_open_bind; auto with session.
  intros pwd. apply keeps_open_except; auto with session.
  apply keeps_open_bind; auto with session.
  intros _. apply keeps_open_call. discriminate.
Qed.

Lemma keeps_open_execute_safely {A} (c : M A) :
  keeps_open c -> keeps_open (_execute_safely c).
Proof. intros. unfold _execute_safely. auto 6 with session. Qed.

#[local] Hint Resolve keeps_open_ls keeps_open_download
  keeps_open_execute_safely keeps_open_print_all : session.

(** The chain of commands either is the quit branch or keeps the session
    open. *)
Lemma dispatch_cases w cmd args :
  (quits cmd = true /\ dispatch w cmd args = set_closed true) \/
  (quits cmd = false /\ keeps_open (dispatch w cmd args)).
Proof.
  unfold dispatch, quits.
  destruct (one_of cmd ["q"; "quit"; "exit"]); [left; auto|right].
  split; [reflexivity|].
  destruct (String.eqb cmd "ls"); auto with session.
  destruct (String.eqb cmd "cd").
  { destruct args; auto with session.
    apply keeps_open_bind; auto with session. intros pwd.
    apply keeps_open_bind; auto with session.
    apply keeps_open_execute_safely, keeps_open_call. discriminate. }
  destruct (one_of cmd ["get"; "download"]); auto with session.
  destruct args as [|a0 [|a1 [|a2 args]]]; auto with session.
  apply keeps_open_bind; auto with session.
  unfold read_fname. apply keeps_open_bind; auto with session.
  intros [f|]; auto with session.
Qed.

Lemma keeps_open_read_command w : keeps_open (read_command w).
Proof.
  unfold read_command.
  apply keeps_open_bind; [apply keeps_open_call; discriminate|]. intros cwd.
  apply keeps_open_bind; auto with session. intros _.
  apply keeps_open_bind; [apply keeps_open_call; discriminate|]. intros typed.
  auto with session.
Qed.

(** One turn never closes the session; it sets [_closed] only by returning
    from the quit branch. *)
Lemma iteration_effect w st r st' :
  iteration w st = (r, st') ->
  count_close (trace st') = count_close (trace st) /\
  (_closed st' = _closed st \/ (r = Ok tt /\ _closed st' = true)).
Proof.
  unfold iteration, bind at 1.
  destruct (read_command w st) as [[[cmd args]|e] st1] eqn:E.
  - destruct (keeps_open_read_command w _ _ _ E) as [Hc Ht]. simpl.
    destruct (dispatch_cases w cmd args) as [[_ ->]|[_ Hk]].
    + intros [= <- <-]. simpl. split; [exact Ht|]. right. auto.
    + intros H. destruct (Hk _ _ _ H) as [Hc' Ht']. split; [lia|].
      left. congruence.
  - intros [= <- <-]. destruct (keeps_open_read_command w _ _ _ E). auto.
Qed.

Lemma start_interactive_outcome : forall script st,
  _closed st = false ->
  match start_interactive script st with
  | Returned s =>
      _closed s = true /\ count_close (trace s) = S (count_close (trace st))
  | Propagated _ s | Waiting s =>
      _closed s = false /\ count_close (trace s) = count_close (trace st)
  end.
Proof.
  induction script as [|w script IH]; intros st Hopen; simpl; rewrite Hopen.
  - auto.
  - destruct (iteration w st) as [[[]|e] st1] eqn:E;
      destruct (iteration_effect _ _ _ _ E) as [Ht Hc].
    + destruct (_closed st1) eqn:Hc1.
      * destruct script; simpl; rewrite Hc1; simpl;
          rewrite count_close_app; simpl; split; auto; lia.
      * specialize (IH st1 Hc1).
        destruct (start_interactive script st1); rewrite <- Ht; exact IH.
    + assert (Hst1 : _closed st1 = false).
      { destruct Hc as [Hc|[Hc _]]; [congruence | discriminate]. }
      destruct e; simpl; try (split; [exact Hst1 | exact Ht]).
      rewrite count_close_app. simpl. split; [reflexivity | lia].
Qed.

Lemma record_nil st : record st [] = st.
Proof. destruct st. unfold record. simpl. now rewrite app_nil_r. Qed.

Lemma record_record st a b : record (record st a) b = record st (a ++ b).
Proof. unfold record. simpl. now rewrite app_assoc. Qed.

Lemma print_all_runs lines : forall st,
  print_all lines st = (Ok tt, record st (map EvPrint lines)).
Proof.
  induction lines as [|l lines IH]; intros st; simpl.
  - unfold ret. now rewrite record_nil.
  - unfold bind, print, emit. fold (record st [EvPrint l]).
    now rewrite IH, record_record.
Qed.

(** What [ls] does with the listing the session returns. *)
Lemma ls_runs w listing st :
  listdir_attr w = Ok listing ->
  ls w st =
    match sorted key_lt _ls_sort listing with
    | Ok ordered =>
        (Ok tt, record st (EvListdir :: map EvPrint (map display_line ordered)))
    | Raise e => (Raise e, record st [EvListdir])
    end.
Proof.
  intros Hl. unfold ls, call, bind, emit, lift. rewrite Hl.
  fold (record st [EvListdir]).
  destruct (sorted key_lt _ls_sort listing) as [ordered|e]; [|reflexivity].
  now rewrite print_all_runs, record_record.
Qed.

(** X20. With a mode on every entry, [ls] prints one line per entry, in an order
    that is a permutation of the listing sorted by the composite key:
    directories, then regular files, then the rest, equal kinds by file
    name. *)
Lemma ls_sorted_with_modes (w : world) (listing : list SFTPAttributes)
      (st : client) :
  listdir_attr w = Ok listing ->
  Forall has_mode listing ->
  exists ordered,
    ls w st =
      (Ok tt, record st (EvListdir :: map EvPrint (map display_line ordered)))
    /\ Permutation listing ordered
    /\ StronglySorted entry_le ordered.
Proof.
  intros Hl Hm.
  destruct (sorted_with_modes listing Hm) as (ordered & Hs & Hp & Ho).
  exists ordered. rewrite (ls_runs w listing st Hl), Hs. auto.
Qed.

(** The listing [(dir, b); (file, a); (dir, a)] is printed as dir [a],
    dir [b], file [a]. *)
Example ls_example_listing :
  printed (trace (snd (ls (listing_world (Ok example_listing)) connected)))
  = ["📁 a"; "📁 b"; "📄 a"].
Proof. vm_compute. reflexivity. Qed.

(** C8 (the code departs from the claim). On a listing with an entry that
    has no mode, which the marker selection would show with the unknown
    marker, the sort key raises [TypeError]: [ls] prints no entry and the
    exception leaves the loop, the session not closed. *)
Theorem ls_fails_on_absent_mode :
  map display_line modeless_listing = ["📁 b"; "? x"; "📄 a"] /\
  ls (listing_world (Ok modeless_listing)) connected
  = (Raise TypeError, record connected [EvListdir]) /\
  start_interactive [listing_world (Ok modeless_listing); typing "quit"]
    connected
  = Propagated TypeError
      {| _closed := false; _pwd := "/home"; fname := None; save_path := None;
         trace := [EvGetcwd; EvPrompt; EvListdir] |}.
Proof. repeat split; vm_compute; reflexivity. Qed.

(** C10. [ls] returns only when every entry of the listing carries a mode:
    the marker selection reads an absent mode as 0 and picks the unknown
    marker, the sort key raises [TypeError] on it, and then [ls] ends with
    that exception after the listing call and before any line is printed. *)
Theorem ls_total_only_with_modes (w : world) (listing : list SFTPAttributes)
        (st : client) :
  listdir_attr w = Ok listing ->
  (fst (ls w st) = Ok tt <-> Forall has_mode listing) /\
  (~ Forall has_mode listing ->
   ls w st = (Raise TypeError, record st [EvListdir])) /\
  (forall name,
      symbol {| filename := name; st_mode := None |} = "?" /\
      _ls_sort {| filename := name; st_mode := None |} = Raise TypeError).
Proof.
  intros Hl. rewrite (ls_runs w listing st Hl).
  assert (Hbad : ~ Forall has_mode listing ->
                 sorted key_lt _ls_sort listing = Raise TypeError).
  { intros H. unfold sorted. now rewrite (decorate_without_mode _ H). }
  split; [|split].
  - split.
    + intros H. destruct (Forall_dec has_mode) with (l := listing) as [Hm|Hm];
        [|exact Hm|].
      * intros x. unfold has_mode. destruct (st_mode x); [left|right]; congruence.
      * rewrite (Hbad Hm) in H. discriminate H.
    + intros Hm. destruct (sorted_with_modes listing Hm) as (o & -> & _).
      reflexivity.
  - intros H. now rewrite (Hbad H).
  - intros name. split; reflexivity.
Qed.

Lemma ls_total_only_with_modes_witness :
  ls (listing_world (Ok [ {| filename := "x"; st_mode := None |} ])) connected
  = (Raise TypeError, record connected [EvListdir]).
Proof.
  refine (proj1 (proj2 (ls_total_only_with_modes
            (listing_world (Ok [ {| filename := "x"; st_mode := None |} ]))
            [ {| filename := "x"; st_mode := None |} ] connected eq_refl)) _).
  intros H. inversion H as [|? ? Hx _]. now apply Hx.
Defined.

(** ** The download command *)

(** X17. The first [get] with one argument reads [fname] before it is bound. *)
Lemma get_one_argument_unbound w cmd a0 st :
  one_of cmd ["get"; "download"] = true ->
  fname st = None ->
  dispatch w cmd [a0] st = (Raise (UnboundLocalError "fname"), st).
Proof.
  intros Hc Hf. unfold dispatch.
  assert (Hq : quits cmd = false /\ String.eqb cmd "ls" = false
               /\ String.eqb cmd "cd" = false).
  { unfold one_of, quits, one_of in *. simpl in *.
    destruct (String.eqb_spec cmd "get") as [->|]; [auto|].
    destruct (String.eqb_spec cmd "download") as [->|]; [auto|discriminate]. }
  destruct Hq as (-> & -> & ->). rewrite Hc.
  unfold bind, read_fname, bind, read. now rewrite Hf.
Qed.

(** X18. A later [get] with one argument, once the display started for its
    file name, asks for the transfer to the local path made of the name of
    the download before. *)
Lemma get_one_argument_stale w cmd a0 old st :
  one_of cmd ["get"; "download"] = true ->
  fname st = Some old ->
  progress w a0 = Ok tt ->
  exists r st',
    dispatch w cmd [a0] st = (r, st') /\
    downloads (trace st')
    = List.app (downloads (trace st))
               [(join "/" [_pwd st; a0], "./" ++ old)].
Proof.
  intros Hc Hf Hp. unfold dispatch.
  assert (Hq : quits cmd = false /\ String.eqb cmd "ls" = false
               /\ String.eqb cmd "cd" = false).
  { unfold one_of, quits, one_of in *. simpl in *.
    destruct (String.eqb_spec cmd "get") as [->|]; [auto|].
    destruct (String.eqb_spec cmd "download") as [->|]; [auto|discriminate]. }
  destruct Hq as (-> & -> & ->). rewrite Hc.
  unfold bind, read_fname, bind, read, ret, set_names, download_file, bind,
    read, except_IOError, call, bind, emit, lift, print, emit.
  rewrite Hf, Hp. cbn [_pwd trace].
  set (remote := join "/" [_pwd st; a0]).
  assert (Hd : forall t e, downloads (t ++ [e])
                           = (downloads t ++ downloads [e])%list).
  { intros. unfold downloads. now rewrite flat_map_app. }
  destruct (get w remote ("./" ++ old)) as [[]|e].
  - eexists _, _. split; [reflexivity|]. cbn [trace]. now rewrite Hd.
  - destruct e; eexists _, _; (split; [reflexivity|]); cbn [trace];
      rewrite ?Hd; simpl; rewrite ?app_nil_r; reflexivity.
Qed.

(** C1 (the code departs from the claim). The first [get file.txt] of a
    session ends the loop with [UnboundLocalError] and no download; after
    [get a b], the line [get c] downloads [c] to [./a], not to [./c]. *)
Theorem get_one_argument_save_path :
  start_interactive [typing "get file.txt"; typing "quit"] connected
  = Propagated (UnboundLocalError "fname")
      {| _closed := false; _pwd := "/home"; fname := None; save_path := None;
         trace := [EvGetcwd; EvPrompt] |} /\
  start_interactive [typing "get a b"; typing "get c"; typing "quit"] connected
  = Returned
      {| _closed := true; _pwd := "/home"; fname := Some "c";
         save_path := Some "./a";
         trace := [EvGetcwd; EvPrompt; EvGet "/home/a" "b";
                   EvGetcwd; EvPrompt; EvGet "/home/c" "./a";
                   EvGetcwd; EvPrompt; EvClose] |}.
Proof. split; vm_compute; reflexivity. Qed.

(** ** Tokenizer failures in the loop *)

Lemma read_command_runs w cwd typed st :
  getcwd w = Ok cwd -> prompt w = Ok typed ->
  read_command w st =
    (command_of typed,
     record (snd (set_pwd (or_empty cwd) st)) [EvGetcwd; EvPrompt]).
Proof.
  intros Hg Hp. unfold read_command, call, bind, emit, lift, set_pwd, record.
  rewrite Hg. simpl. rewrite Hp. simpl. now rewrite <- app_assoc.
Qed.

(** X19. Nothing in the loop handles the [ValueError] of the tokenizer. *)
Lemma tokenizer_failure_propagates w rest cwd typed e st :
  _closed st = false ->
  getcwd w = Ok cwd -> prompt w = Ok typed ->
  command_of typed = Raise e -> e <> KeyboardInterrupt ->
  start_interactive (w :: rest) st
  = Propagated e (record (snd (set_pwd (or_empty cwd) st)) [EvGetcwd; EvPrompt]).
Proof.
  intros Ho Hg Hp Hc He. simpl. rewrite Ho.
  unfold iteration, bind. rewrite (read_command_runs _ _ _ _ Hg Hp), Hc.
  destruct e; simpl; rewrite ?Ho; try reflexivity. now elim He.
Qed.

(** C2 (the code departs from the claim). On a [get] line whose argument
    opens a double quote and never closes it, the [ValueError] leaves
    [start_interactive]: nothing is printed, the next line is not read and
    the session is not closed. *)
Theorem tokenizer_failure_ends_loop :
  command_of ("get " ++ String dquote "a")
  = Raise (ValueError "Unterminated quote at index 2") /\
  command_of "cd a\"
  = Raise (ValueError
             "Escape sequence is not followed by a character at index 2") /\
  start_interactive [typing ("get " ++ String dquote "a"); typing "ls";
                     typing "quit"] connected
  = Propagated (ValueError "Unterminated quote at index 2")
      {| _closed := false; _pwd := "/home"; fname := None; save_path := None;
         trace := [EvGetcwd; EvPrompt] |}.
Proof. repeat split; vm_compute; reflexivity. Qed.

(** ** Leaving the loop *)

Lemma start_interactive_closed script st :
  _closed st = true -> start_interactive script st = after_loop st.
Proof. intros H. destruct script; simpl; now rewrite H. Qed.

Lemma get_or_download cmd :
  one_of cmd ["get"; "download"] = true -> cmd = "get" \/ cmd = "download".
Proof.
  unfold one_of. simpl.
  destruct (String.eqb_spec cmd "get"); [auto|].
  destruct (String.eqb_spec cmd "download"); [auto|discriminate].
Qed.

(** An interrupt raised by any call of the turn reaches the handler of the
    loop: no handler in between takes it. *)
Lemma interrupted_raises w st :
  interrupted w st -> fst (iteration w st) = Raise KeyboardInterrupt.
Proof.
  intros H. unfold iteration, bind at 1.
  destruct H as [Hg | cwd Hg Hp | cwd typed args Hg Hp Hc Hl
                 | cwd typed a0 args Hg Hp Hc Hd
                 | cwd typed cmd a0 a1 Hg Hp Hc Hcmd Hs Hd
                 | cwd typed cmd a0 old Hg Hp Hc Hcmd Hf Hs Hd
                 | cwd typed cmd a0 a1 Hg Hp Hc Hcmd Hs
                 | cwd typed cmd a0 old Hg Hp Hc Hcmd Hf Hs].
  - unfold read_command, call, bind, emit, lift. now rewrite Hg.
  - unfold read_command, call, bind, emit, lift, set_pwd. rewrite Hg. simpl.
    now rewrite Hp.
  - rewrite (read_command_runs _ _ _ _ Hg Hp), Hc. simpl.
    unfold dispatch. simpl. unfold ls, call, bind, emit, lift. now rewrite Hl.
  - rewrite (read_command_runs _ _ _ _ Hg Hp), Hc. simpl.
    unfold dispatch. simpl.
    unfold _execute_safely, except_IOError, call, bind, read, emit, lift.
    simpl in *. now rewrite Hd.
  - rewrite (read_command_runs _ _ _ _ Hg Hp), Hc. simpl.
    destruct (get_or_download _ Hcmd) as [-> | ->]; unfold dispatch; simpl;
      unfold download_file, except_IOError, call, bind, read, emit, lift;
      simpl in *; rewrite Hs; simpl; now rewrite Hd.
  - rewrite (read_command_runs _ _ _ _ Hg Hp), Hc. simpl.
    destruct (get_or_download _ Hcmd) as [-> | ->]; unfold dispatch; simpl;
      unfold read_fname, download_file, except_IOError, call, bind, read,
        emit, lift; simpl; rewrite Hf; simpl in *; rewrite Hs; simpl;
      now rewrite Hd.
  - rewrite (read_command_runs _ _ _ _ Hg Hp), Hc. simpl.
    destruct (get_or_download _ Hcmd) as [-> | ->]; unfold dispatch; simpl;
      unfold download_file, except_IOError, call, bind, read, emit, lift;
      simpl in *; now rewrite Hs.
  - rewrite (read_command_runs _ _ _ _ Hg Hp), Hc. simpl.
    destruct (get_or_download _ Hcmd) as [-> | ->]; unfold dispatch; simpl;
      unfold read_fname, download_file, except_IOError, call, bind, read,
        emit, lift; simpl; rewrite Hf; simpl in *; now rewrite Hs.
Qed.

Lemma interrupt_closes w rest st :
  _closed st = false ->
  fst (iteration w st) = Raise KeyboardInterrupt ->
  exists s,
    start_interactive (w :: rest) st = Returned s /\
    _closed s = true /\
    count_close (trace s) = S (count_close (trace st)).
Proof.
  intros Ho Hi. simpl. rewrite Ho.
  destruct (iteration w st) as [r st1] eqn:E. simpl in Hi. subst r.
  destruct (iteration_effect _ _ _ _ E) as [Ht _].
  eexists. split; [reflexivity|]. simpl. split; [reflexivity|].
  rewrite count_close_app. simpl. lia.
Qed.

Lemma quit_closes w rest cwd typed cmd args st :
  _closed st = false ->
  getcwd w = Ok cwd -> prompt w = Ok typed ->
  command_of typed = Ok (cmd, args) -> quits cmd = true ->
  exists s,
    start_interactive (w :: rest) st = Returned s /\
    _closed s = true /\
    count_close (trace s) = S (count_close (trace st)).
Proof.
  intros Ho Hg Hp Hc Hq. simpl. rewrite Ho.
  unfold iteration, bind at 1.
  rewrite (read_command_runs _ _ _ _ Hg Hp), Hc. simpl.
  unfold dispatch. rewrite Hq. simpl.
  rewrite start_interactive_closed by reflexivity.
  eexists. split; [reflexivity|]. simpl. split; [reflexivity|].
  rewrite !count_close_app. simpl. lia.
Qed.

(** C3. However the loop leaves the running state, by a quit command or by
    an interrupt raised by a call of the turn, [start_interactive] returns
    after closing the session exactly once; so it does when the interrupt
    comes during the prompt. *)
Theorem close_on_every_exit (script : list world) (st : client) :
  _closed st = false ->
  (_closed (final (start_interactive script st)) = true ->
   exists s,
     start_interactive script st = Returned s /\
     count_close (trace s) = S (count_close (trace st))) /\
  (forall w rest,
      script = w :: rest ->
      interrupted w st \/
      (exists cwd typed cmd args,
          getcwd w = Ok cwd /\ prompt w = Ok typed /\
          command_of typed = Ok (cmd, args) /\ quits cmd = true) ->
      exists s,
        start_interactive script st = Returned s /\
        _closed s = true /\
        count_close (trace s) = S (count_close (trace st))) /\
  (forall w rest cwd,
      script = w :: rest ->
      getcwd w = Ok cwd -> prompt w = Raise KeyboardInterrupt ->
      exists s,
        start_interactive script st = Returned s /\
        _closed s = true /\
        count_close (trace s) = S (count_close (trace st))).
Proof.
  intros Ho. split; [|split].
  - pose proof (start_interactive_outcome script st Ho) as H.
    destruct (start_interactive script st) as [s|e s|s]; simpl; intros Hc.
    + exists s. split; [reflexivity | apply H].
    + destruct H; congruence.
    + destruct H; congruence.
  - intros w rest -> [Hi | (cwd & typed & cmd & args & Hg & Hp & Hc & Hq)].
    + apply interrupt_closes; [exact Ho | now apply interrupted_raises].
    + eapply quit_closes; eauto.
  - intros w rest cwd -> Hg Hp.
    apply interrupt_closes; [exact Ho|].
    apply interrupted_raises. eapply In_prompt; eauto.
Qed.

Lemma close_on_every_exit_witness :
  _closed connected = false /\
  exists s,
    start_interactive [typing "ls"; interrupting; typing "ls"] connected
    = Returned s /\
    count_close (trace s) = 1.
Proof.
  split; [reflexivity|].
  apply (proj1 (close_on_every_exit [typing "ls"; interrupting; typing "ls"]
                  connected eq_refl)).
  vm_compute. reflexivity.
Defined.

(** ** Changing directory *)

(** C9. When the directory change of a [cd] fails with an [IOError], the
    error is caught and its message printed, and [self._pwd] is what it was
    before the call; a [cd] without argument asks for no directory change
    and leaves the client as it was. *)
Theorem cd_failure_keeps_pwd (w : world) (st : client) (a0 : string)
        (args : list string) (msg : string) :
  chdir w (join "/" [_pwd st; a0]) = Raise (IOError msg) ->
  dispatch w "cd" (a0 :: args) st
  = (Ok tt, record st [EvChdir (join "/" [_pwd st; a0]); EvPrint msg]) /\
  _pwd (snd (dispatch w "cd" (a0 :: args) st)) = _pwd st /\
  dispatch w "cd" [] st = (Ok tt, st).
Proof.
  intros Hc.
  assert (H : dispatch w "cd" (a0 :: args) st
              = (Ok tt, record st [EvChdir (join "/" [_pwd st; a0]);
                                   EvPrint msg])).
  { unfold dispatch. simpl.
    unfold _execute_safely, except_IOError, call, bind, read, emit, lift,
      print, emit, ret, record.
    simpl in *. rewrite Hc. simpl. now rewrite <- app_assoc. }
  split; [exact H|]. split; [now rewrite H | reflexivity].
Qed.

Lemma cd_failure_keeps_pwd_witness :
  chdir refusing (join "/" [_pwd connected; "nowhere"])
  = Raise (IOError "No such file") /\
  _pwd (snd (dispatch refusing "cd" ["nowhere"] connected)) = _pwd connected.
Proof.
  split; [reflexivity|].
  apply (cd_failure_keeps_pwd refusing connected "nowhere" [] "No such file").
  reflexivity.
Defined.

End SessionFacts.

(** ** The completion cache *)

Module CompleterFacts.
Import PyStr Completer.
Local Open Scope string_scope.

Section Cache.
Variable word_gen : nat -> Document -> res (list string).
Hypothesis word_gen_returns : returns_normally word_gen.

Lemma split_nonempty sep s : (1 <= List.length (split sep s))%nat.
Proof.
  induction s as [|c s IH]; simpl; [lia|].
  destruct (Ascii.eqb c sep); simpl; [lia|].
  destruct (split sep s); simpl in *; lia.
Qed.

(** A line always has at least one word: no count equals the sentinel. *)
Lemma word_count_positive document : (1 <= word_count document)%Z.
Proof.
  unfold word_count. pose proof (split_nonempty space (current_line document)).
  lia.
Qed.

(** One request, when the word source returns. *)
Lemma get_completions_step self document :
  exists self' r,
    get_completions word_gen self document = (Ok r, self') /\
    _last_word_count self' = word_count document /\
    (invocations self' =? invocations self)%nat
    = (word_count document =? _last_word_count self)%Z /\
    ((word_count document =? _last_word_count self)%Z = true -> self' = self).
Proof.
  unfold get_completions, refresh.
  destruct (word_count document =? _last_word_count self)%Z eqn:E; simpl.
  - eexists _, _. split; [reflexivity|]. apply Z.eqb_eq in E.
    repeat split; auto. apply Nat.eqb_refl.
  - destruct (word_gen_returns (invocations self) document) as [words ->].
    eexists _, _. split; [reflexivity|]. cbn [_last_word_count invocations].
    repeat split; try discriminate.
    apply Nat.eqb_neq. lia.
Qed.

Lemma serve_invocations : forall requests self,
  map invoked (serve word_gen self requests)
  = expected_invocations (_last_word_count self) (map word_count requests).
Proof.
  induction requests as [|document requests IH]; intros self; simpl.
  - reflexivity.
  - destruct (get_completions_step self document)
      as (self' & r & -> & Hcount & Hinv & _).
    simpl. now rewrite Hinv, IH, Hcount.
Qed.

End Cache.

End CompleterFacts.

Module CacheFacts.
Import PyStr Listing Completer Words Cache CompleterFacts.
Local Open Scope string_scope.

(** C7, as stated, fails: when the listing call of [get_words] fails on the
    request for [cd ] and the operator types on, the next request has two
    words as the one before and calls the word source again. *)
Lemma previous_count_rule_fails_after_failure :
  ~ previous_count_rule listing_fails_once cd_requests.
Proof. unfold previous_count_rule. vm_compute. discriminate. Qed.

Section Requests.
Variable word_gen : nat -> Document -> res (list string).

(** One request, whatever the word source does. *)
Lemma get_completions_cases self document :
  if (word_count document =? _last_word_count self)%Z
  then get_completions word_gen self document
       = (Ok (offer (_word_cache self) document), self)
  else match word_gen (invocations self) document with
       | Ok words =>
           get_completions word_gen self document
           = (Ok (offer words document),
              {| _last_word_count := word_count document;
                 _word_cache := words;
                 invocations := S (invocations self) |})
       | Raise e =>
           get_completions word_gen self document
           = (Raise e,
              {| _last_word_count := _last_word_count self;
                 _word_cache := _word_cache self;
                 invocations := S (invocations self) |})
       end.
Proof.
  unfold get_completions, refresh.
  destruct (word_count document =? _last_word_count self)%Z; [reflexivity|].
  cbn [negb]. now destruct (word_gen (invocations self) document).
Qed.

Lemma succ_neq n : (S n =? n)%nat = false.
Proof. apply Nat.eqb_neq. lia. Qed.

Lemma serve_after_failures : forall requests self,
  map invoked (serve word_gen self requests)
  = expected_after_failures (_last_word_count self)
      (combine (map word_count requests)
               (map returned (serve word_gen self requests))).
Proof.
  induction requests as [|d requests IH]; intros self; [reflexivity|].
  cbn [serve map]. pose proof (get_completions_cases self d) as H.
  destruct (word_count d =? _last_word_count self)%Z eqn:E.
  - rewrite H. cbn [map combine expected_after_failures invoked returned answer].
    rewrite Nat.eqb_refl, E. cbn [negb]. f_equal.
    rewrite IH. apply Z.eqb_eq in E. now rewrite E.
  - destruct (word_gen (invocations self) d) as [words|e]; rewrite H;
      cbn [map combine expected_after_failures invoked returned answer
             invocations];
      rewrite succ_neq, E; cbn [negb]; f_equal; now rewrite IH.
Qed.

Lemma serve_stores_answer : forall requests self i d s,
  nth_error requests i = Some d ->
  nth_error (serve word_gen self requests) i = Some s ->
  invoked s = true -> returned s = true ->
  word_gen (invocations self
            + calls (firstn i (map invoked (serve word_gen self requests)))) d
  = Ok (candidates s) /\
  answer s = Ok (offer (candidates s) d).
Proof.
  induction requests as [|d0 requests IH]; intros self i d s.
  - destruct i; discriminate.
  - cbn [serve]. pose proof (get_completions_cases self d0) as H.
    destruct i as [|i].
    + cbn [nth_error firstn calls]. intros [= ->]. rewrite Nat.add_0_r.
      destruct (word_count d =? _last_word_count self)%Z.
      * rewrite H. intros [= <-]. cbn [invoked].
        rewrite Nat.eqb_refl. discriminate.
      * destruct (word_gen (invocations self) d) as [words|e]; rewrite H;
          intros [= <-]; cbn [invoked returned answer candidates _word_cache];
          [auto | discriminate].
    + cbn [nth_error]. intros Hd.
      destruct (get_completions word_gen self d0) as [r self'] eqn:E.
      cbn [nth_error map firstn invoked]. intros Hs Hi Hr.
      destruct (IH self' i d s Hd Hs Hi Hr) as [Hw Ha]. split; [|exact Ha].
      rewrite <- Hw. f_equal.
      destruct (word_count d0 =? _last_word_count self)%Z.
      * injection H as _ ->. rewrite Nat.eqb_refl. reflexivity.
      * destruct (word_gen (invocations self) d0);
          injection H as _ ->; cbn [invocations]; rewrite succ_neq;
          cbn [negb calls]; lia.
Qed.

Lemma serve_reuses_cache : forall requests self i first second d1 d2,
  nth_error requests i = Some d1 ->
  nth_error requests (S i) = Some d2 ->
  word_count d1 = word_count d2 ->
  nth_error (serve word_gen self requests) i = Some first ->
  nth_error (serve word_gen self requests) (S i) = Some second ->
  returned first = true ->
  invoked second = false /\
  candidates second = candidates first /\
  answer second = Ok (offer (candidates first) d2).
Proof.
  induction requests as [|d requests IH]; intros self i first second d1 d2.
  - destruct i; discriminate.
  - destruct i as [|i].
    + destruct requests as [|d' requests]; [discriminate|].
      cbn [nth_error serve]. intros [= ->] [= ->] Hsame.
      destruct (get_completions word_gen self d1) as [r1 self1] eqn:E1.
      destruct (get_completions word_gen self1 d2) as [r2 self2] eqn:E2.
      cbn [nth_error]. intros [= <-] [= <-].
      unfold returned. cbn [answer invoked candidates]. intros Hr.
      assert (Hcount : _last_word_count self1 = word_count d1).
      { pose proof (get_completions_cases self d1) as H. rewrite E1 in H.
        destruct (word_count d1 =? _last_word_count self)%Z eqn:E.
        - injection H as _ ->. symmetry. now apply Z.eqb_eq.
        - destruct (word_gen (invocations self) d1).
          + injection H as _ ->. reflexivity.
          + injection H as -> _. discriminate Hr. }
      pose proof (get_completions_cases self1 d2) as H. rewrite E2 in H.
      rewrite Hcount, Hsame, Z.eqb_refl in H. injection H as -> ->.
      rewrite Nat.eqb_refl. auto.
    + cbn [nth_error serve].
      destruct (get_completions word_gen self d) as [r self'].
      cbn [nth_error]. apply IH.
Qed.

End Requests.

(** C7, amended. On one completer, a request calls the word source exactly
    when its number of space-separated words differs from that of the last
    request before it that returned, the sentinel while none returned, so
    that the first request calls it; when the word source returns whenever
    it is called, that is the request before.  A request that called it and
    returned holds in the cache the list the source returned and completes
    from it; of two requests in a row with the same number, the first of
    which returned, the second does not call it and completes from the list
    the first one left. *)
Theorem word_source_called_when_recorded_count_differs
        (word_gen : nat -> Document -> res (list string))
        (requests : list Document) :
  map invoked (serve word_gen __init__ requests)
  = expected_after_failures (-1)
      (combine (map word_count requests)
               (map returned (serve word_gen __init__ requests))) /\
  (forall document, (word_count document =? -1)%Z = false) /\
  (returns_normally word_gen ->
   map invoked (serve word_gen __init__ requests)
   = expected_invocations (-1) (map word_count requests)) /\
  (forall i d s,
      nth_error requests i = Some d ->
      nth_error (serve word_gen __init__ requests) i = Some s ->
      invoked s = true -> returned s = true ->
      word_gen (calls (firstn i (map invoked
                                     (serve word_gen __init__ requests)))) d
      = Ok (candidates s) /\
      answer s = Ok (offer (candidates s) d)) /\
  (forall i first second d1 d2,
      nth_error requests i = Some d1 ->
      nth_error requests (S i) = Some d2 ->
      word_count d1 = word_count d2 ->
      nth_error (serve word_gen __init__ requests) i = Some first ->
      nth_error (serve word_gen __init__ requests) (S i) = Some second ->
      returned first = true ->
      invoked second = false /\
      candidates second = candidates first /\
      answer second = Ok (offer (candidates first) d2)).
Proof.
  split; [apply (serve_after_failures word_gen requests __init__)|].
  split.
  { intros document. pose proof (word_count_positive document).
    apply Z.eqb_neq. lia. }
  split.
  { intros Hret. apply (serve_invocations word_gen Hret requests __init__). }
  split.
  - intros i d s Hd Hs Hi Hr.
    exact (serve_stores_answer word_gen requests __init__ i d s Hd Hs Hi Hr).
  - intros i first second d1 d2 H1 H2 Hsame H3 H4 Hr.
    exact (serve_reuses_cache word_gen requests __init__ i first second d1 d2
             H1 H2 Hsame H3 H4 Hr).
Qed.

(** The operator types [g], [ge], [get ], [get a]: the word source is
    called at the first word and again at the second. *)
Example typing_get_calls :
  map invoked (serve command_words __init__ typing_get)
  = [true; false; true; false].
Proof. vm_compute. reflexivity. Qed.

End CacheFacts.

(** ** Arguments that come back from the tokenizer *)

Module EncodingFacts.
Import PyStr Tokenizer Encoding TokenizerFacts.
Local Open Scope string_scope.

Lemma chars_app (s t : string) :
  list_ascii_of_string (s ++ t)
  = (list_ascii_of_string s ++ list_ascii_of_string t)%list.
Proof. induction s as [|c s IH]; simpl; congruence. Qed.

Lemma chars_length (s : string) :
  List.length (list_ascii_of_string s) = String.length s.
Proof. induction s as [|c s IH]; simpl; congruence. Qed.

Lemma append_empty_r (s : string) : s ++ "" = s.
Proof. induction s as [|c s IH]; simpl; congruence. Qed.

Lemma append_char_assoc (a : string) c (s : string) :
  (a ++ char c) ++ s = a ++ String c s.
Proof. induction a as [|x a IH]; simpl; congruence. Qed.

(** *** The loop counts every character *)

Lemma index_counts : forall l st,
  index (fold_left loop_body l st) = index st + List.length l.
Proof.
  induction l as [|c l IH]; intros st; simpl; [lia|].
  rewrite IH. unfold loop_body.
  destruct (escaping st); [simpl; lia|].
  destruct (Ascii.eqb c backslash); [simpl; lia|].
  destruct (quote_is (quote st) c); [simpl; lia|].
  destruct (quote_is_none (quote st) && is_quote_char c); [simpl; lia|].
  destruct (quote_is_none (quote st) && Ascii.eqb c space); simpl; lia.
Qed.

(** X1. When [_parse_args] fails, the index in the message is the length of
    the input, whatever the place of the quote or backslash at fault. *)
Theorem error_index_is_input_length (args : string) (e : exn) :
  _parse_args args = Raise e ->
  e = ValueError (unterminated_msg (String.length args)) \/
  e = ValueError (dangling_msg (String.length args)).
Proof.
  unfold _parse_args, finish, scan.
  pose proof (index_counts (list_ascii_of_string args) initial) as Hi.
  rewrite chars_length in Hi. simpl in Hi.
  destruct (quote _).
  - intros [= <-]. left. now rewrite Hi.
  - destruct (escaping _); [|discriminate].
    intros [= <-]. right. now rewrite Hi.
Qed.

Lemma error_index_is_input_length_witness :
  _parse_args (String squote "ab c") = Raise (ValueError "Unterminated quote at index 5") /\
  (ValueError "Unterminated quote at index 5"
   = ValueError (unterminated_msg (String.length (String squote "ab c"))) \/
   ValueError "Unterminated quote at index 5"
   = ValueError (dangling_msg (String.length (String squote "ab c")))).
Proof.
  split; [reflexivity|].
  apply (error_index_is_input_length (String squote "ab c")). reflexivity.
Defined.

(** *** No empty token *)

Lemma parsed_nonempty : forall l st,
  Forall (fun t => truthy t = true) (parsed st) ->
  Forall (fun t => truthy t = true) (parsed (fold_left loop_body l st)).
Proof.
  induction l as [|c l IH]; intros st H; simpl; [exact H|].
  apply IH. unfold loop_body.
  destruct (escaping st); [exact H|].
  destruct (Ascii.eqb c backslash); [exact H|].
  destruct (quote_is (quote st) c); [exact H|].
  destruct (quote_is_none (quote st) && is_quote_char c); [exact H|].
  destruct (quote_is_none (quote st) && Ascii.eqb c space); [|exact H].
  simpl. destruct (truthy (arg st)) eqn:E; [|exact H].
  apply Forall_app. split; [exact H|]. now repeat constructor.
Qed.

(** X2. No token [_parse_args] returns is empty: an argument written as two
    quotes with nothing between leaves no token. *)
Theorem tokens_are_nonempty (args : string) (toks : list string) :
  _parse_args args = Ok toks ->
  Forall (fun t => t <> "") toks.
Proof.
  unfold _parse_args, finish, scan.
  pose proof (parsed_nonempty (list_ascii_of_string args) initial
                (Forall_nil _)) as H.
  destruct (quote _); [discriminate|].
  destruct (escaping _); [discriminate|].
  intros [= <-].
  assert (Hall : Forall (fun t => truthy t = true)
                   (if truthy (arg (fold_left loop_body (list_ascii_of_string args) initial))
                    then (parsed (fold_left loop_body (list_ascii_of_string args) initial)
                            ++ [arg (fold_left loop_body (list_ascii_of_string args) initial)])%list
                    else parsed (fold_left loop_body (list_ascii_of_string args) initial))).
  { destruct (truthy (arg _)) eqn:E; [|exact H].
    apply Forall_app. split; [exact H|]. now repeat constructor. }
  eapply Forall_impl; [|exact Hall].
  intros t Ht ->. discriminate Ht.
Qed.

Lemma tokens_are_nonempty_witness :
  _parse_args ("get " ++ String squote (String squote " save.txt"))
  = Ok ["get"; "save.txt"] /\
  Forall (fun t => t <> "") ["get"; "save.txt"].
Proof.
  split; [reflexivity|].
  apply (tokens_are_nonempty ("get " ++ String squote (String squote " save.txt"))).
  reflexivity.
Defined.

(** *** Quoting and escaping give the argument back *)

Lemma scan_inside_quote q : forall l p a i,
  Forall (fun c => c <> q /\ c <> backslash) l ->
  fold_left loop_body l
    {| parsed := p; arg := a; escaping := false; quote := Some q; index := i |}
  = {| parsed := p; arg := a ++ string_of_list_ascii l; escaping := false;
       quote := Some q; index := i + List.length l |}.
Proof.
  induction l as [|c l IH]; intros p a i H; simpl.
  - now rewrite append_empty_r, Nat.add_0_r.
  - inversion H as [|? ? [Hq Hb] Hl]; subst.
    unfold loop_body at 2. simpl.
    apply Ascii.eqb_neq in Hq, Hb. rewrite Hb, Hq. simpl.
    rewrite (IH _ _ _ Hl). f_equal; [apply append_char_assoc | lia].
Qed.

Lemma parse_quoted (q : ascii) (s : string) :
  q = squote \/ q = dquote ->
  quotable q s ->
  _parse_args (quoted_with q s) = Ok (single s).
Proof.
  intros Hq Hs. unfold _parse_args, scan, quoted_with.
  cbn [list_ascii_of_string fold_left]. rewrite chars_app, fold_left_app.
  assert (H1 : loop_body initial q
               = {| parsed := []; arg := ""; escaping := false;
                    quote := Some q; index := 1 |})
    by (destruct Hq; subst; reflexivity).
  rewrite H1, (scan_inside_quote q _ _ _ _ Hs).
  rewrite string_of_list_ascii_of_string. simpl.
  unfold loop_body. simpl.
  assert (Hb : Ascii.eqb q backslash = false) by (destruct Hq; subst; reflexivity).
  rewrite Hb, Ascii.eqb_refl. unfold finish, single. simpl.
  now destruct (truthy s).
Qed.

(** X3. An argument between two single or two double quotes, with neither
    that quote nor a backslash inside, comes back as the one token, spaces
    and the other quote included; nothing between the quotes gives no
    token. *)
Theorem quoted_argument_round_trip (q : ascii) (s : string) :
  q = squote \/ q = dquote ->
  quotable q s ->
  _parse_args (quoted_with q s) = Ok (single s).
Proof. exact (parse_quoted q s). Qed.

Lemma quoted_argument_round_trip_witness :
  (dquote = squote \/ dquote = dquote) /\
  quotable dquote "my file's.txt" /\
  _parse_args (quoted_with dquote "my file's.txt") = Ok ["my file's.txt"].
Proof.
  assert (H : quotable dquote "my file's.txt").
  { unfold quotable. simpl. repeat constructor; discriminate. }
  split; [now right|]. split; [exact H|].
  exact (quoted_argument_round_trip dquote "my file's.txt" (or_intror eq_refl) H).
Defined.

Lemma scan_escaped : forall s st,
  escaping st = false ->
  fold_left loop_body (list_ascii_of_string (escape_all s)) st
  = {| parsed := parsed st; arg := arg st ++ s; escaping := false;
       quote := quote st; index := index st + 2 * String.length s |}.
Proof.
  induction s as [|c s IH]; intros [p a e qu i] He; simpl in *; subst e.
  - now rewrite append_empty_r, Nat.add_0_r.
  - unfold loop_body at 3. simpl. unfold loop_body at 2. simpl.
    rewrite IH by reflexivity. simpl.
    f_equal; [apply append_char_assoc | lia].
Qed.

(** X4. With a backslash in front of each of its characters, any string,
    whatever quotes, spaces and backslashes it holds, comes back as the one
    token. *)
Theorem escaped_argument_round_trip (s : string) :
  _parse_args (escape_all s) = Ok (single s).
Proof.
  unfold _parse_args, scan. rewrite scan_escaped by reflexivity.
  unfold finish, single. simpl. now destruct s.
Qed.

(** *** Two argument strings side by side *)

(** X5. When two strings tokenize, so does the first, a space, the second,
    and its tokens are those of the first followed by those of the second. *)
Theorem parse_args_of_two_parts (a b : string) (ta tb : list string) :
  _parse_args a = Ok ta ->
  _parse_args b = Ok tb ->
  _parse_args (a ++ String space b) = Ok (ta ++ tb)%list.
Proof.
  intros Ha Hb. apply classify_Ok.
  unfold _parse_args, scan in *. rewrite chars_app, fold_left_app.
  cbn [list_ascii_of_string fold_left].
  set (sa := fold_left loop_body (list_ascii_of_string a) initial) in *.
  unfold finish in Ha.
  destruct (quote sa) eqn:Hq; [discriminate|].
  destruct (escaping sa) eqn:He; [discriminate|].
  injection Ha as Ha.
  rewrite (scan_refines _ _ NoQuote).
  - unfold loop_body. rewrite He, Hq. simpl. rewrite Ha.
    pose proof (parse_args_refines b) as Hr.
    unfold _parse_args, scan in Hr. rewrite Hb in Hr. simpl in Hr.
    injection Hr as Hr. unfold reference_tokenize in Hr. now rewrite <- Hr.
  - unfold loop_body. rewrite He, Hq. simpl. constructor.
Qed.

Lemma parse_args_of_two_parts_witness :
  _parse_args (String dquote ("a b" ++ char dquote)) = Ok ["a b"] /\
  _parse_args "c\ d  e" = Ok ["c d"; "e"] /\
  _parse_args (String dquote ("a b" ++ char dquote) ++ String space "c\ d  e")
  = Ok ["a b"; "c d"; "e"].
Proof.
  split; [reflexivity|]. split; [reflexivity|].
  exact (parse_args_of_two_parts (String dquote ("a b" ++ char dquote))
           "c\ d  e" ["a b"] ["c d"; "e"] eq_refl eq_refl).
Defined.

End EncodingFacts.

(** ** The word source and the completer *)

Module WordsFacts.
Import PyStr Tokenizer Listing Completer Encoding Words.
Import TokenizerFacts EncodingFacts.
Local Open Scope string_scope.

Lemma prefix_empty s : String.prefix "" s = true.
Proof. now destruct s. Qed.

Lemma contains_empty s : contains "" s = true.
Proof. destruct s; simpl; [reflexivity|]. reflexivity. Qed.

Lemma prefix_char c d r :
  String.prefix (char c) (String d r) = if ascii_dec c d then true else false.
Proof.
  unfold char. cbn [String.prefix].
  destruct (ascii_dec c d); [apply prefix_empty | reflexivity].
Qed.

Lemma contains_space_false s :
  contains " " s = false ->
  Forall (fun c => c <> space) (list_ascii_of_string s).
Proof.
  induction s as [|c s IH]; cbn [contains list_ascii_of_string];
    [constructor|].
  change " " with (char space). rewrite prefix_char.
  destruct (ascii_dec space c) as [<-|n]; [discriminate|].
  cbn [orb]. intros H. constructor; [|now apply IH].
  intros ->. now apply n.
Qed.

(** An unquoted word: the loop copies it to the buffer. *)
Lemma scan_word : forall l p a i,
  Forall (fun c => c <> dquote /\ c <> backslash) l ->
  Forall (fun c => c <> squote) l ->
  Forall (fun c => c <> space) l ->
  fold_left loop_body l
    {| parsed := p; arg := a; escaping := false; quote := None; index := i |}
  = {| parsed := p; arg := a ++ string_of_list_ascii l; escaping := false;
       quote := None; index := i + List.length l |}.
Proof.
  induction l as [|c l IH]; intros p a i H1 H2 H3; simpl.
  - now rewrite append_empty_r, Nat.add_0_r.
  - inversion H1 as [|? ? [Hd Hb] H1']; inversion H2 as [|? ? Hs H2'];
      inversion H3 as [|? ? Hsp H3']; subst.
    unfold loop_body at 2. simpl. unfold is_quote_char.
    apply Ascii.eqb_neq in Hd, Hb, Hs, Hsp. rewrite Hb, Hd, Hs, Hsp. simpl.
    rewrite (IH _ _ _ H1' H2' H3'). f_equal; [apply append_char_assoc | lia].
Qed.

(** X6. What the completer offers for a file name is tokenized back to that
    name: a name with a space through its double quotes, a name without as
    it is. *)
Theorem candidate_round_trip (entry : SFTPAttributes) :
  completable (filename entry) ->
  _parse_args (candidate entry) = Ok [filename entry].
Proof.
  intros (Hne & Hq & Hs). unfold candidate.
  destruct (contains " " (filename entry)) eqn:E.
  - change (char dquote ++ filename entry ++ char dquote)
      with (quoted_with dquote (filename entry)).
    rewrite parse_quoted; [|now right|exact Hq].
    unfold single. destruct (filename entry); [congruence|reflexivity].
  - unfold _parse_args, scan, initial.
    rewrite scan_word; [|exact Hq|now apply Hs|now apply contains_space_false].
    rewrite string_of_list_ascii_of_string. unfold finish. simpl.
    destruct (filename entry); [congruence|reflexivity].
Qed.

Lemma candidate_round_trip_witness :
  completable "my file.txt" /\
  _parse_args (candidate {| filename := "my file.txt"; st_mode := None |})
  = Ok ["my file.txt"].
Proof.
  assert (H : completable "my file.txt").
  { unfold completable. split; [discriminate|]. split.
    - simpl. repeat constructor; discriminate.
    - simpl. discriminate. }
  split; [exact H|].
  exact (candidate_round_trip {| filename := "my file.txt"; st_mode := None |} H).
Defined.

Lemma dir_or_reg_has_mode entry :
  is_dir entry = true \/ is_reg entry = true -> has_mode entry.
Proof.
  unfold is_dir, is_reg, has_mode.
  destruct (st_mode entry); [discriminate|].
  simpl. intros [H|H]; discriminate H.
Qed.

Lemma dir_is_not_reg entry : is_dir entry = true -> is_reg entry = false.
Proof.
  unfold is_dir, is_reg, S_ISDIR, S_ISREG.
  intros H. apply Z.eqb_eq in H. rewrite H. reflexivity.
Qed.

(** X7. Every word [get_words] offers is a command name or the candidate of
    a listed entry that carries a mode: a directory after [cd], a regular
    file after [get] or [download]. *)
Theorem get_words_offers (entries : list SFTPAttributes)
        (document : Document) (words : list string) :
  get_words (Ok entries) document = Ok words ->
  words = commands \/
  Forall (fun w => exists entry,
              In entry entries /\ w = candidate entry /\ has_mode entry /\
              (if String.eqb (hd "" (split space (current_line document))) "cd"
               then is_dir entry = true /\ is_reg entry = false
               else is_reg entry = true /\ is_dir entry = false)) words.
Proof.
  unfold get_words.
  destruct (List.length _ =? 1)%nat; [intros [= <-]; now left|].
  destruct (List.length _ =? 2)%nat; [|intros [= <-]; right; constructor].
  destruct (String.eqb _ "cd").
  - intros [= <-]. right. apply Forall_forall. intros w Hw.
    apply in_map_iff in Hw. destruct Hw as (entry & <- & Hin).
    apply filter_In in Hin. destruct Hin as [Hin Hd].
    exists entry. repeat split; auto.
    + apply dir_or_reg_has_mode. now left.
    + now apply dir_is_not_reg.
  - destruct (_ || _); [|intros [= <-]; right; constructor].
    intros [= <-]. right. apply Forall_forall. intros w Hw.
    apply in_map_iff in Hw. destruct Hw as (entry & <- & Hin).
    apply filter_In in Hin. destruct Hin as [Hin Hr].
    exists entry. repeat split; auto.
    + apply dir_or_reg_has_mode. now right.
    + destruct (is_dir entry) eqn:Hd; [|reflexivity].
      apply dir_is_not_reg in Hd. congruence.
Qed.

Lemma get_words_offers_witness :
  get_words (Ok home_listing)
    {| current_line := "get m"; word_before_cursor := "m" |}
  = Ok [String dquote ("my file.txt" ++ char dquote)] /\
  ([String dquote ("my file.txt" ++ char dquote)] = commands \/
   Forall (fun w => exists entry,
               In entry home_listing /\ w = candidate entry /\ has_mode entry /\
               is_reg entry = true /\ is_dir entry = false)
          [String dquote ("my file.txt" ++ char dquote)]).
Proof.
  split; [reflexivity|].
  exact (get_words_offers home_listing
           {| current_line := "get m"; word_before_cursor := "m" |}
           [String dquote ("my file.txt" ++ char dquote)] eq_refl).
Defined.

(** *** The completer on a word source *)

Section Source.
Variable word_gen : nat -> Document -> res (list string).

(** X8. With nothing typed of the word under the cursor, a request offers
    every word of the source, in its order, replacing nothing. *)
Theorem empty_word_offers_all (document : Document) (words : list string) :
  word_before_cursor document = "" ->
  word_gen 0 document = Ok words ->
  fst (get_completions word_gen __init__ document)
  = Ok (map (fun a => {| text := a; start_position := 0; display := a;
                         display_meta := "" |}) words).
Proof.
  intros Hw Hg. unfold get_completions, refresh.
  assert (Hc : (word_count document =? _last_word_count __init__)%Z = false).
  { apply Z.eqb_neq. unfold word_count. simpl. lia. }
  rewrite Hc. simpl. rewrite Hg, Hw. simpl. f_equal.
  clear Hg. induction words as [|a words IH]; cbn [filter map];
    [reflexivity|].
  rewrite contains_empty. cbn [map]. now rewrite IH.
Qed.

(** X9. When the word source raises, the request raises the same, and
    neither the recorded count nor the cached list changes: the next request
    calls the source again, also for a line with as many words. *)
Theorem failed_word_source_is_called_again (self : CommandCompleter)
        (d1 d2 : Document) (e : exn) (words : list string) :
  word_count d1 <> _last_word_count self ->
  word_count d2 = word_count d1 ->
  word_gen (invocations self) d1 = Raise e ->
  word_gen (S (invocations self)) d2 = Ok words ->
  exists self1 self2 r,
    get_completions word_gen self d1 = (Raise e, self1) /\
    _last_word_count self1 = _last_word_count self /\
    _word_cache self1 = _word_cache self /\
    get_completions word_gen self1 d2 = (Ok r, self2) /\
    invocations self2 = S (S (invocations self)) /\
    _word_cache self2 = words.
Proof.
  intros Hn Hs H1 H2. unfold get_completions, refresh.
  apply Z.eqb_neq in Hn. rewrite Hn. simpl. rewrite H1.
  eexists _, _, _. split; [reflexivity|]. simpl.
  rewrite Hs, Hn. simpl. rewrite H2.
  repeat split; reflexivity.
Qed.

End Source.

Lemma failed_word_source_is_called_again_witness :
  exists self1 self2 r,
    get_completions flaky __init__
      {| current_line := "cd "; word_before_cursor := "" |}
    = (Raise (IOError "Socket is closed"), self1) /\
    _last_word_count self1 = _last_word_count __init__ /\
    _word_cache self1 = _word_cache __init__ /\
    get_completions flaky self1
      {| current_line := "cd d"; word_before_cursor := "d" |} = (Ok r, self2) /\
    invocations self2 = 2 /\
    _word_cache self2 = ["docs"].
Proof.
  apply (failed_word_source_is_called_again flaky __init__
           {| current_line := "cd "; word_before_cursor := "" |}
           {| current_line := "cd d"; word_before_cursor := "d" |}
           (IOError "Socket is closed") ["docs"]).
  - discriminate.
  - reflexivity.
  - reflexivity.
  - reflexivity.
Defined.

Lemma empty_word_offers_all_witness :
  fst (get_completions (fun _ => get_words (Ok home_listing)) __init__
         {| current_line := "cd "; word_before_cursor := "" |})
  = Ok [ {| text := "docs"; start_position := 0; display := "docs";
            display_meta := "" |} ].
Proof.
  exact (empty_word_offers_all (fun _ => get_words (Ok home_listing))
           {| current_line := "cd "; word_before_cursor := "" |}
           ["docs"] eq_refl eq_refl).
Defined.

End WordsFacts.

(** ** More on the turns of the loop *)

Module TurnFacts.
Import PyStr Listing Session Turn.
Import TokenizerFacts ListingFacts SessionFacts EncodingFacts.
Local Open Scope string_scope.
Local Open Scope session_scope.

(** *** The command word and its arguments *)

Lemma split_has_head s : exists h t, split space s = h :: t.
Proof.
  induction s as [|c s (h & t & IH)]; simpl; [eauto|].
  destruct (Ascii.eqb c space); [eauto|]. rewrite IH. eauto.
Qed.

Lemma split_no_space s : no_space s -> split space s = [s].
Proof.
  unfold no_space. induction s as [|c s IH]; simpl; [reflexivity|].
  intros H. inversion H as [|? ? Hc Hs]; subst.
  apply Ascii.eqb_neq in Hc. rewrite Hc, (IH Hs). reflexivity.
Qed.

Lemma split_first_space cmd rest :
  no_space cmd ->
  split space (cmd ++ String space rest) = cmd :: split space rest.
Proof.
  unfold no_space. induction cmd as [|c cmd IH]; simpl; [reflexivity|].
  intros H. inversion H as [|? ? Hc Hs]; subst.
  apply Ascii.eqb_neq in Hc. rewrite Hc, (IH Hs). reflexivity.
Qed.

Lemma join_split s : join " " (split space s) = s.
Proof.
  unfold join. induction s as [|c s IH]; cbn [split]; [reflexivity|].
  destruct (split_has_head s) as (h & t & E). rewrite E in *.
  destruct (Ascii.eqb c space) eqn:Hc.
  - apply Ascii.eqb_eq in Hc. subst c.
    change (concat " " ("" :: h :: t)) with (" " ++ concat " " (h :: t)).
    now rewrite IH.
  - destruct t as [|h' t]; [simpl in *; congruence|].
    change (concat " " (String c h :: h' :: t))
      with (String c (h ++ " " ++ concat " " (h' :: t))).
    change (concat " " (h :: h' :: t))
      with (h ++ " " ++ concat " " (h' :: t)) in IH.
    now rewrite IH.
Qed.

(** X10. The command is what stands before the first space of the line, the
    arguments are the tokens of what stands after it; a line without space
    is a command without arguments, whatever characters it holds. *)
Theorem command_of_first_space (cmd : string) :
  no_space cmd ->
  command_of cmd = Ok (cmd, []) /\
  forall rest,
    command_of (cmd ++ String space rest)
    = match Tokenizer._parse_args rest with
      | Ok args => Ok (cmd, args)
      | Raise e => Raise e
      end.
Proof.
  intros H. unfold command_of. split.
  - now rewrite (split_no_space cmd H).
  - intros rest. rewrite (split_first_space cmd rest H).
    destruct (split_has_head rest) as (h & t & E).
    cbn [hd tl]. rewrite join_split, E. reflexivity.
Qed.

Lemma command_of_first_space_witness :
  no_space (String dquote "ls") /\
  command_of (String dquote "ls") = Ok (String dquote "ls", []) /\
  command_of (String dquote "ls" ++ String space "a  b")
  = Ok (String dquote "ls", ["a"; "b"]).
Proof.
  assert (H : no_space (String dquote "ls")).
  { unfold no_space. simpl. repeat constructor; discriminate. }
  split; [exact H|].
  split.
  - exact (proj1 (command_of_first_space (String dquote "ls") H)).
  - exact (proj2 (command_of_first_space (String dquote "ls") H) "a  b").
Defined.

(** *** Turns that print and go on *)

Lemma turn_dispatches w cwd typed cmd args st :
  getcwd w = Ok cwd -> prompt w = Ok typed ->
  command_of typed = Ok (cmd, args) ->
  iteration w st = dispatch w cmd args (at_dispatch st cwd).
Proof.
  intros Hg Hp Hc. unfold iteration, bind.
  now rewrite (read_command_runs _ _ _ _ Hg Hp), Hc.
Qed.




(** X12. A [get] or [download] with no argument or with more than two prints
    the usage line and does nothing else: no download is asked for and
    [fname] keeps its value. *)
Theorem get_usage (w : world) (cmd : string) (args : list string)
        (st : client) :
  one_of cmd ["get"; "download"] = true ->
  List.length args = 0 \/ 3 <= List.length args ->
  dispatch w cmd args st = (Ok tt, record st [EvPrint usage]).
Proof.
  intros Hc Hn.
  assert (Hq : quits cmd = false /\ String.eqb cmd "ls" = false
               /\ String.eqb cmd "cd" = false).
  { destruct (get_or_download _ Hc) as [-> | ->]; auto. }
  destruct Hq as (Hq & Hl & Hcd).
  unfold dispatch. rewrite Hq, Hl, Hcd, Hc.
  destruct args as [|a0 [|a1 [|a2 args]]]; simpl in Hn; try reflexivity; lia.
Qed.

Lemma get_usage_witness :
  one_of "get" ["get"; "download"] = true /\
  dispatch (typing "get a b c") "get" ["a"; "b"; "c"] connected
  = (Ok tt, record connected [EvPrint usage]).
Proof.
  split; [reflexivity|].
  apply (get_usage (typing "get a b c") "get" ["a"; "b"; "c"] connected).
  - reflexivity.
  - right. simpl. lia.
Defined.

(** X13. A download whose display started and whose transfer fails with an
    [IOError] does not end the session: the message is printed and the loop
    goes on to the next line.  The remote path is [self._pwd], a slash, the
    file name. *)
Theorem failed_download_goes_on (w : world) (rest : list world)
        (cwd : option string) (typed cmd a0 a1 msg : string) (st : client) :
  _closed st = false ->
  getcwd w = Ok cwd -> prompt w = Ok typed ->
  command_of typed = Ok (cmd, [a0; a1]) ->
  one_of cmd ["get"; "download"] = true ->
  progress w a0 = Ok tt ->
  get w (or_empty cwd ++ "/" ++ a0) a1 = Raise (IOError msg) ->
  start_interactive (w :: rest) st
  = start_interactive rest
      (record (named a0 a1 (at_dispatch st cwd))
         [EvGet (or_empty cwd ++ "/" ++ a0) a1; EvPrint msg]).
Proof.
  intros Ho Hg Hp Hc Hcmd Hs Hget. cbn [start_interactive]. rewrite Ho.
  rewrite (turn_dispatches _ _ _ _ _ _ Hg Hp Hc).
  assert (Hq : quits cmd = false /\ String.eqb cmd "ls" = false
               /\ String.eqb cmd "cd" = false).
  { destruct (get_or_download _ Hcmd) as [-> | ->]; auto. }
  destruct Hq as (Hq & Hl & Hcd).
  unfold dispatch. rewrite Hq, Hl, Hcd, Hcmd.
  unfold download_file, except_IOError, call, bind, read, emit, lift, print,
    emit, set_names, named, at_dispatch, record.
  cbn [fst snd _pwd _closed fname save_path trace set_pwd join concat].
  rewrite Hs, Hget. cbn [_pwd _closed fname save_path trace].
  now rewrite <- app_assoc.
Qed.

Lemma failed_download_goes_on_witness :
  start_interactive [failing_download; typing "quit"] connected
  = start_interactive [typing "quit"]
      (record (named "report.pdf" "out.pdf" (at_dispatch connected None))
         [EvGet "/report.pdf" "out.pdf"; EvPrint "No such file"]).
Proof.
  exact (failed_download_goes_on failing_download [typing "quit"] None
           "get report.pdf out.pdf" "get" "report.pdf" "out.pdf"
           "No such file" connected
           eq_refl eq_refl eq_refl eq_refl eq_refl eq_refl eq_refl).
Defined.



(** X14. An exception of [listdir_attr] during [ls], an [IOError] too, is
    not handled as the one of [chdir] is: it leaves the loop, nothing
    printed and the session not closed. *)
Theorem failed_listing_ends_loop (w : world) (rest : list world)
        (cwd : option string) (typed : string) (args : list string)
        (e : exn) (st : client) :
  _closed st = false ->
  getcwd w = Ok cwd -> prompt w = Ok typed ->
  command_of typed = Ok ("ls", args) ->
  listdir_attr w = Raise e -> e <> KeyboardInterrupt ->
  start_interactive (w :: rest) st
  = Propagated e (record (at_dispatch st cwd) [EvListdir]).
Proof.
  intros Ho Hg Hp Hc Hl He. cbn [start_interactive]. rewrite Ho.
  rewrite (turn_dispatches _ _ _ _ _ _ Hg Hp Hc).
  unfold dispatch. cbn [quits one_of existsb String.eqb Ascii.eqb Bool.eqb orb].
  unfold ls, call, bind, emit, lift. rewrite Hl.
  destruct e; try reflexivity. now elim He.
Qed.

Lemma failed_listing_ends_loop_witness :
  start_interactive [failing_listing; typing "quit"] connected
  = Propagated (IOError "Socket is closed")
      (record (at_dispatch connected (Some "/home")) [EvListdir]).
Proof.
  apply (failed_listing_ends_loop failing_listing [typing "quit"]
           (Some "/home") "ls" [] (IOError "Socket is closed") connected);
    try reflexivity.
  discriminate.
Defined.

(** X15. A [cd] whose directory change succeeds asks for [self._pwd], a
    slash, the first argument, prints nothing and ignores further
    arguments; while [getcwd] still returns [None] the path asked for is
    the argument under the root. *)
Theorem cd_requests_joined_path (w : world) (cwd : option string)
        (typed a0 : string) (args : list string) (st : client) :
  getcwd w = Ok cwd -> prompt w = Ok typed ->
  command_of typed = Ok ("cd", a0 :: args) ->
  chdir w (or_empty cwd ++ "/" ++ a0) = Ok tt ->
  iteration w st
  = (Ok tt, record (at_dispatch st cwd) [EvChdir (or_empty cwd ++ "/" ++ a0)])
  /\ (cwd = None -> or_empty cwd ++ "/" ++ a0 = String "/" a0).
Proof.
  intros Hg Hp Hc Hcd. split; [|intros ->; reflexivity].
  rewrite (turn_dispatches _ _ _ _ _ _ Hg Hp Hc).
  unfold dispatch. cbn [quits one_of existsb String.eqb Ascii.eqb Bool.eqb orb].
  unfold _execute_safely, except_IOError, call, bind, read, emit, lift, ret,
    at_dispatch, record.
  cbn [fst snd _pwd _closed fname save_path trace set_pwd join concat].
  rewrite Hcd. reflexivity.
Qed.

Lemma cd_requests_joined_path_witness :
  iteration fresh_cd connected
  = (Ok tt, record (at_dispatch connected None) [EvChdir "/docs"]).
Proof.
  exact (proj1 (cd_requests_joined_path fresh_cd None "cd docs" "docs" []
                  connected eq_refl eq_refl eq_refl eq_refl)).
Defined.

(** *** What a turn does to [self._pwd] *)

Lemma keeps_ret {B A} (f : client -> B) (a : A) : keeps f (ret a).
Proof. intros st r st' [= <- <-]. reflexivity. Qed.

Lemma keeps_raise {B A} (f : client -> B) e : keeps f (@raise A e).
Proof. intros st r st' [= <- <-]. reflexivity. Qed.

Lemma keeps_lift {B A} (f : client -> B) (r : res A) : keeps f (lift r).
Proof. intros st r' st' [= <- <-]. reflexivity. Qed.

Lemma keeps_read {B A} (f : client -> B) (g : client -> A) : keeps f (read g).
Proof. intros st r st' [= <- <-]. reflexivity. Qed.

Lemma keeps_bind {B A C} (f : client -> B) (c : M A) (k : A -> M C) :
  keeps f c -> (forall a, keeps f (k a)) -> keeps f (bind c k).
Proof.
  intros Hc Hk st r st'. unfold bind.
  destruct (c st) as [[a|e] st1] eqn:E; intros H.
  - rewrite (Hk a _ _ _ H). exact (Hc _ _ _ E).
  - injection H as <- <-. exact (Hc _ _ _ E).
Qed.

Lemma keeps_except {B A} (f : client -> B) (c : M A) h :
  keeps f c -> (forall m, keeps f (h m)) -> keeps f (except_IOError c h).
Proof.
  intros Hc Hh st r st'. unfold except_IOError.
  destruct (c st) as [[a|e] st1] eqn:E.
  - intros [= <- <-]. exact (Hc _ _ _ E).
  - pose proof (Hc _ _ _ E) as H1.
    destruct e; try (intros [= <- <-]; exact H1).
    intros H. rewrite (Hh _ _ _ _ H). exact H1.
Qed.

Lemma keeps_pwd_emit e : keeps _pwd (emit e).
Proof. intros st r st' [= <- <-]. reflexivity. Qed.

Lemma keeps_pwd_set_closed b : keeps _pwd (set_closed b).
Proof. intros st r st' [= <- <-]. reflexivity. Qed.

Lemma keeps_pwd_set_names f s : keeps _pwd (set_names f s).
Proof. intros st r st' [= <- <-]. reflexivity. Qed.

Create HintDb pwd.

#[local] Hint Resolve keeps_ret keeps_raise keeps_lift keeps_read keeps_bind
  keeps_except keeps_pwd_emit keeps_pwd_set_closed keeps_pwd_set_names : pwd.

Lemma keeps_pwd_print_all lines : keeps _pwd (print_all lines).
Proof. induction lines; simpl; unfold print; auto with pwd. Qed.

Lemma keeps_pwd_dispatch w cmd args : keeps _pwd (dispatch w cmd args).
Proof.
  unfold dispatch.
  destruct (quits cmd); auto with pwd.
  destruct (String.eqb cmd "ls").
  { unfold ls, call. auto 8 using keeps_pwd_print_all with pwd. }
  destruct (String.eqb cmd "cd").
  { destruct args; auto with pwd.
    unfold _execute_safely, call, print. auto 10 with pwd. }
  destruct (one_of cmd ["get"; "download"]); [|unfold print; auto with pwd].
  destruct args as [|a0 [|a1 [|a2 args]]];
    unfold read_fname, download_file, call, print; auto 12 with pwd.
  apply keeps_bind.
  - apply keeps_bind; auto with pwd. intros [f|]; auto with pwd.
  - intros old. auto 12 with pwd.
Qed.

(** X16. No command writes [self._pwd], a [cd] that succeeds neither: after a
    turn in which [getcwd] returned, whatever the line and however the turn
    ends, [self._pwd] is what [getcwd] returned at its head, the empty
    string for [None]. *)
Theorem pwd_is_last_getcwd (w : world) (cwd : option string) (st st' : client)
        (r : res unit) :
  getcwd w = Ok cwd ->
  iteration w st = (r, st') ->
  _pwd st' = or_empty cwd.
Proof.
  intros Hg. unfold iteration, bind at 1.
  destruct (read_command w st) as [[ca|e] st1] eqn:E.
  - intros H. rewrite (keeps_pwd_dispatch _ _ _ _ _ _ H).
    clear H. revert E. unfold read_command, call, bind, emit, lift, set_pwd.
    rewrite Hg. cbn. destruct (prompt w) as [typed|]; [|discriminate].
    destruct (command_of typed); intros [= _ <-]. reflexivity.
  - intros [= _ <-]. revert E.
    unfold read_command, call, bind, emit, lift, set_pwd.
    rewrite Hg. cbn. destruct (prompt w) as [typed|].
    + destruct (command_of typed); intros [= _ <-]. reflexivity.
    + intros [= _ <-]. reflexivity.
Qed.

Lemma pwd_is_last_getcwd_witness :
  _pwd (snd (iteration fresh_cd
               {| _closed := false; _pwd := "/old"; fname := None;
                  save_path := None; trace := [] |})) = "".
Proof.
  apply (pwd_is_last_getcwd fresh_cd None
           {| _closed := false; _pwd := "/old"; fname := None;
              save_path := None; trace := [] |}
           (snd (iteration fresh_cd
                   {| _closed := false; _pwd := "/old"; fname := None;
                      save_path := None; trace := [] |}))
           (Ok tt)).
  - reflexivity.
  - vm_compute. reflexivity.
Defined.

(** *** The download command and the tokenizer in the loop, in general *)

Lemma get_one_argument_unbound_witness :
  one_of "download" ["get"; "download"] = true /\
  fname connected = None /\
  dispatch (typing "download a.txt") "download" ["a.txt"] connected
  = (Raise (UnboundLocalError "fname"), connected).
Proof.
  split; [reflexivity|]. split; [reflexivity|].
  exact (get_one_argument_unbound (typing "download a.txt") "download" "a.txt"
           connected eq_refl eq_refl).
Defined.

Lemma get_one_argument_stale_witness :
  progress (typing "get c") "c" = Ok tt /\
  exists r st',
    dispatch (typing "get c") "get" ["c"] (named "a" "b" connected) = (r, st') /\
    downloads (trace st') = [("/c", "./a")].
Proof.
  split; [reflexivity|].
  exact (get_one_argument_stale (typing "get c") "get" "c" "a"
           (named "a" "b" connected) eq_refl eq_refl eq_refl).
Defined.

Lemma tokenizer_failure_propagates_witness :
  start_interactive [typing "cd a\"; typing "quit"] connected
  = Propagated
      (ValueError "Escape sequence is not followed by a character at index 2")
      (at_dispatch connected (Some "/home")).
Proof.
  apply (tokenizer_failure_propagates (typing "cd a\") [typing "quit"]
           (Some "/home") "cd a\"
           (ValueError
              "Escape sequence is not followed by a character at index 2")
           connected); try reflexivity.
  discriminate.
Defined.

Lemma ls_sorted_with_modes_witness :
  Forall has_mode example_listing /\
  exists ordered,
    ls (listing_world (Ok example_listing)) connected
    = (Ok tt,
       record connected (EvListdir :: map EvPrint (map display_line ordered)))
    /\ Permutation example_listing ordered
    /\ StronglySorted entry_le ordered.
Proof.
  assert (H : Forall has_mode example_listing).
  { unfold example_listing, has_mode. repeat constructor; discriminate. }
  split; [exact H|].
  exact (ls_sorted_with_modes (listing_world (Ok example_listing))
           example_listing connected eq_refl H).
Defined.

End TurnFacts.

(** ** Stability of the sort *)

Module OrderFacts.
Import PyStr Listing Order ListingFacts.
Local Open Scope string_scope.

Lemma key_eqb_eq a b : key_eqb a b = true <-> a = b.
Proof.
  unfold key_eqb. destruct a as [ra fa], b as [rb fb]. simpl.
  rewrite andb_true_iff, Z.eqb_eq, String.eqb_eq.
  split; [intros [-> ->]; reflexivity | intros [= -> ->]; auto].
Qed.

Lemma key_lt_irrefl k : key_lt k k = false.
Proof.
  destruct (key_lt k k) eqn:E; [|reflexivity].
  pose proof (key_lt_asym _ _ E). congruence.
Qed.

Section Stable.
Context {A : Type}.
Variable k : sort_key.

Lemma insert_keeps_order (x : sort_key * A) l :
  filter (fun p => key_eqb (fst p) k) (insert key_lt x l)
  = filter (fun p => key_eqb (fst p) k) (x :: l).
Proof.
  induction l as [|y l IH]; [reflexivity|].
  cbn [insert]. destruct (key_lt (fst y) (fst x)) eqn:Hlt; [|reflexivity].
  cbn [filter] in *. rewrite IH.
  destruct (key_eqb (fst y) k) eqn:Hy, (key_eqb (fst x) k) eqn:Hx;
    try reflexivity.
  apply key_eqb_eq in Hy, Hx. rewrite Hy, Hx, key_lt_irrefl in Hlt.
  discriminate.
Qed.

Lemma stable_sort_keeps_order (d : list (sort_key * A)) :
  filter (fun p => key_eqb (fst p) k) (stable_sort key_lt d)
  = filter (fun p => key_eqb (fst p) k) d.
Proof.
  induction d as [|x d IH]; [reflexivity|].
  cbn [stable_sort fold_right]. fold (stable_sort key_lt d).
  rewrite insert_keeps_order. cbn [filter]. now rewrite IH.
Qed.
End Stable.

Lemma filter_keyed a (l : list (sort_key * SFTPAttributes)) :
  Forall (fun p => fst p = key_of (snd p)) l ->
  filter (same_key a) (map snd l)
  = map snd (filter (fun p => key_eqb (fst p) (key_of a)) l).
Proof.
  induction 1 as [|p l Hp Hl IH]; [reflexivity|].
  cbn [map filter]. unfold same_key at 1. rewrite <- Hp, IH.
  now destruct (key_eqb (fst p) (key_of a)).
Qed.

Lemma sorted_Ok_has_modes listing ordered :
  sorted key_lt _ls_sort listing = Ok ordered -> Forall has_mode listing.
Proof.
  intros H.
  destruct (Forall_dec has_mode) with (l := listing) as [Hm|Hm]; [|exact Hm|].
  - intros x. unfold has_mode. destruct (st_mode x); [left|right]; congruence.
  - unfold sorted in H. rewrite (decorate_without_mode _ Hm) in H.
    discriminate H.
Qed.

(** X21. The sort of [ls] is stable: the entries that have the same kind and
    the same name stand in the sorted listing in the order the session
    listed them. *)
Theorem sorted_keeps_listing_order (listing ordered : list SFTPAttributes)
        (a : SFTPAttributes) :
  sorted key_lt _ls_sort listing = Ok ordered ->
  filter (same_key a) ordered = filter (same_key a) listing.
Proof.
  intros H. pose proof (sorted_Ok_has_modes _ _ H) as Hm.
  unfold sorted in H. rewrite (decorate_with_modes _ Hm) in H.
  injection H as <-.
  set (d := map (fun x => (key_of x, x)) listing).
  assert (Hd : Forall (fun p : sort_key * SFTPAttributes =>
                         fst p = key_of (snd p)) d).
  { unfold d. apply Forall_forall. intros p Hp.
    apply in_map_iff in Hp. destruct Hp as (x & <- & _). reflexivity. }
  rewrite filter_keyed.
  - rewrite stable_sort_keeps_order, <- filter_keyed by exact Hd.
    unfold d. rewrite map_map. simpl. now rewrite map_id.
  - eapply Permutation_Forall; [apply stable_sort_perm | exact Hd].
Qed.

Lemma sorted_keeps_listing_order_witness :
  sorted key_lt _ls_sort twins
  = Ok [ {| filename := "b"; st_mode := Some 16877%Z |};
         {| filename := "a"; st_mode := Some 33188%Z |};
         {| filename := "a"; st_mode := Some 33261%Z |} ] /\
  filter (same_key {| filename := "a"; st_mode := Some 33188%Z |})
         [ {| filename := "b"; st_mode := Some 16877%Z |};
           {| filename := "a"; st_mode := Some 33188%Z |};
           {| filename := "a"; st_mode := Some 33261%Z |} ]
  = filter (same_key {| filename := "a"; st_mode := Some 33188%Z |}) twins.
Proof.
  split; [reflexivity|].
  apply (sorted_keeps_listing_order twins). reflexivity.
Defined.

End OrderFacts.
